(** * In-memory log storage of Trillian: a shallow embedding

    This development embeds [storage/memory/log_storage.go] and states the
    properties of its operations: the leaf queue, the sequenced-leaf store,
    the signed-root lineage and the transaction that hosts them.

    Conventions of the embedding.
    - Go [[]byte] values and the Go [string]s made from them are byte
      sequences; both are [string] here (a list of 8-bit characters), so the
      conversion [string(b)] is the identity and [len] counts bytes.
    - [int], [int64] and [uint64] values are [Z]; where the source does
      arithmetic that can leave the range ([start+i], [rev+1]) the wrap-around
      is written out with [wrap64].
    - The B-tree [t.tx] is used through [Get] and [ReplaceOrInsert] only, so it
      is a finite map from keys to item values.  The keys are the five
      [fmt.Sprintf] formats of the source; each format is injective in its
      arguments and no two formats overlap, so a key is the format together
      with its arguments.
    - An item value is an [interface{}]; a failed type assertion, or a field
      access through a nil item, is a run-time panic: [Panic].
    - The tree objects live in the storage's table [m.trees]; the pointer
      [t.tree] of a transaction is the key of its tree in that table, and a
      write through the pointer is a write to the table.
    - The queue and the hash index are reached through their items in [t.tx]
      and updated in place; here the update replaces the item in [t.tx].
    - Leaves and signed roots are passed by pointer and never written to by
      the storage; they are values here, and never nil.
    - Locks, contexts and the metric counters have no part in what the
      operations return or store and are left out. *)

From stdpp Require Import gmap strings list fin_maps pretty.
From Stdlib Require Import ZArith Lia Permutation Ascii.

Open Scope Z_scope.

(** ** Data model *)

Definition len (b : string) : Z := Z.of_nat (String.length b).

Definition wrap64 (z : Z) : Z := (z + 2 ^ 63) mod 2 ^ 64 - 2 ^ 63.

(** [trillian.LogLeaf]. *)
Record LogLeaf := {
  MerkleLeafHash : string;
  LeafValue : string;
  ExtraData : string;
  LeafIndex : Z;
  LeafIdentityHash : string;
  QueueTimestamp : Z;
  IntegrateTimestamp : Z
}.

(** [types.LogRootV1], the structured body of a signed root. *)
Record LogRootV1 := {
  TreeSize : Z;
  RootHash : string;
  TimestampNanos : Z;
  Revision : Z
}.

(** [trillian.SignedLogRoot].

    Modelled from the spec: the package [types] with
    [LogRootV1.UnmarshalBinary] is not among the sources.  The spec describes
    the signed root as an opaque envelope carrying a structured body
    [{tree_size, root_hash, timestamp_nanos, revision}] plus a signature.  The
    serialized [LogRoot] bytes are therefore represented by what unmarshalling
    them yields: the body, or nothing when the bytes do not unmarshal. *)
Record SignedLogRoot := {
  LogRoot : option LogRootV1;
  LogRootSignature : string
}.

Inductive TreeType := LOG | PREORDERED_LOG.
Inductive TreeState := ACTIVE | DRAINING | FROZEN.

(** [trillian.Tree], the tree metadata supplied by the admin storage. *)
Record Tree := {
  TreeId : Z;
  TreeType_ : TreeType;
  TreeState_ : TreeState;
  Deleted : bool
}.

(** gRPC status codes used by the storage. *)
Inductive Code := OK | AlreadyExists | Unimplemented.

(** A [status.Status]: code, format string and its argument. *)
Record Status := { StatusCode : Code; StatusMessage : string; StatusArg : string }.

Inductive error :=
  | ErrQueuedHashSize (want : Z)
  | ErrSequencedHashSize (got want : Z)
  | ErrUnknownLeaves (unknown : Z) (countByMerkleHash : gmap string Z)
  | ErrTreeNeedsInit
  | ErrUnknownTree (treeID : Z)
  | ErrUnmarshal
  | ErrStatus (s : Status).

(** [trillian.QueuedLogLeaf]; a nil [Status] stands for OK. *)
Record QueuedLogLeaf := { Leaf : LogLeaf; Status_ : option Status }.

Definition GetStatusCode (q : QueuedLogLeaf) : Code :=
  match Status_ q with
  | None => OK
  | Some s => StatusCode s
  end.

(** What a call gives back: a value, an error, or a run-time panic. *)
Inductive outcome (A : Type) :=
  | Ret (a : A)
  | Fail (e : error)
  | Panic.
Arguments Ret {A} a.
Arguments Fail {A} e.
Arguments Panic {A}.

(** ** Keys and items of the per-tree store *)

Inductive Key :=
  | unseqKey (treeID : Z)                 (* "/%d/unseq" *)
  | seqLeafKey (treeID seq : Z)           (* "/%d/seq/%020d" *)
  | hashToSeqKey (treeID : Z)             (* "/%d/h2s" *)
  | sthKey (treeID timestamp : Z)         (* "/%d/sth/%020d" *)
  | revKey (treeID timestamp : Z).        (* "/%d/rev/%020d" *)

#[global] Instance Key_eq_dec : EqDecision Key.
Proof. solve_decision. Defined.

Definition Key_to_sum (k : Key) : Z + (Z * Z) + Z + (Z * Z) + (Z * Z) :=
  match k with
  | unseqKey i => inl (inl (inl (inl i)))
  | seqLeafKey i s => inl (inl (inl (inr (i, s))))
  | hashToSeqKey i => inl (inl (inr i))
  | sthKey i ts => inl (inr (i, ts))
  | revKey i ts => inr (i, ts)
  end.

Definition Key_of_sum (x : Z + (Z * Z) + Z + (Z * Z) + (Z * Z)) : Key :=
  match x with
  | inl (inl (inl (inl i))) => unseqKey i
  | inl (inl (inl (inr (i, s)))) => seqLeafKey i s
  | inl (inl (inr i)) => hashToSeqKey i
  | inl (inr (i, ts)) => sthKey i ts
  | inr (i, ts) => revKey i ts
  end.

#[global] Instance Key_countable : Countable Key.
Proof.
  apply (inj_countable' Key_to_sum Key_of_sum).
  intros []; reflexivity.
Defined.

(** The dynamic type of an item's value [kv.v]. *)
Inductive Value :=
  | VList (q : list LogLeaf)              (* *list.List of *trillian.LogLeaf *)
  | VLeaf (l : LogLeaf)                   (* *trillian.LogLeaf *)
  | VMap (m : gmap string (list Z))       (* map[string][]int64 *)
  | VSLR (s : SignedLogRoot)              (* *trillian.SignedLogRoot *)
  | VInt (n : Z).                         (* int64 *)

(** The in-memory [tree]: its key-value space and the timestamp of the
    current signed tree head. *)
Record memTree := {
  store : gmap Key Value;
  currentSTH : Z;
  meta : Tree
}.

(** Replacing one field of a tree object. *)
Definition set_store (st : gmap Key Value) (tr : memTree) : memTree :=
  {| store := st; currentSTH := currentSTH tr; meta := meta tr |}.

Definition set_currentSTH (ts : Z) (tr : memTree) : memTree :=
  {| store := store tr; currentSTH := ts; meta := meta tr |}.

(** [logTreeTX] with the fields of the embedded [treeTX]; [tree] points into
    the storage's table of trees. *)
Record logTreeTX := {
  tx : gmap Key Value;
  tree : Z;
  treeID : Z;
  hashSizeBytes : Z;
  writeRevision : Z;
  closed : bool;
  root : LogRootV1;
  slr : option SignedLogRoot
}.

Definition set_tx (f : gmap Key Value → gmap Key Value) (t : logTreeTX) : logTreeTX :=
  {| tx := f (tx t); tree := tree t; treeID := treeID t;
     hashSizeBytes := hashSizeBytes t; writeRevision := writeRevision t;
     closed := closed t; root := root t; slr := slr t |}.

(** ** Queue operations *)

(** [make([]T, 0, n)]: a negative capacity panics; the capacity is otherwise
    only a hint (memory is taken to be unbounded). *)
Definition makeslice_ok (n : Z) : bool := 0 <=? n.

(** The loop of [DequeueLeaves]: [i] counts up to [limit], [e] walks the list
    from its front. *)
Fixpoint DequeueLeaves_loop (i limit : Z) (e : list LogLeaf) (leaves : list LogLeaf)
  : list LogLeaf :=
  match e with
  | [] => leaves
  | x :: e' =>
      if i <? limit then DequeueLeaves_loop (i + 1) limit e' (leaves ++ [x])
      else leaves
  end.

Definition DequeueLeaves (t : logTreeTX) (limit : Z) (cutoffTime : Z)
  : outcome (list LogLeaf) :=
  if negb (makeslice_ok limit) then Panic else
  match tx t !! unseqKey (treeID t) with
  | Some (VList q) => Ret (DequeueLeaves_loop 0 limit q [])
  | _ => Panic
  end.

(** The validation loop of [QueueLeaves]: the first leaf with a wrong
    identity-hash length ends the call. *)
Fixpoint QueueLeaves_check (hashSize : Z) (leaves : list LogLeaf) : option error :=
  match leaves with
  | [] => None
  | leaf :: rest =>
      if bool_decide (len (LeafIdentityHash leaf) ≠ hashSize)
      then Some (ErrQueuedHashSize hashSize)
      else QueueLeaves_check hashSize rest
  end.

(** [q.PushBack(l)] for every leaf in turn. *)
Fixpoint PushBack_all (q : list LogLeaf) (leaves : list LogLeaf) : list LogLeaf :=
  match leaves with
  | [] => q
  | l :: rest => PushBack_all (q ++ [l]) rest
  end.

(** [logTreeTX.QueueLeaves]: the result slice has one nil entry per leaf. *)
Definition QueueLeaves (t : logTreeTX) (leaves : list LogLeaf) (queueTimestamp : Z)
  : outcome (list (option LogLeaf)) * logTreeTX :=
  match QueueLeaves_check (hashSizeBytes t) leaves with
  | Some err => (Fail err, t)
  | None =>
      match tx t !! unseqKey (treeID t) with
      | Some (VList q) =>
          (Ret (replicate (length leaves) None),
           set_tx (insert (unseqKey (treeID t)) (VList (PushBack_all q leaves))) t)
      | _ => (Panic, t)
      end
  end.

(** [logTreeTX.AddSequencedLeaves]. *)
Definition AddSequencedLeaves (t : logTreeTX) (leaves : list LogLeaf) (timestamp : Z)
  : outcome (list QueuedLogLeaf) :=
  Fail (ErrStatus {| StatusCode := Unimplemented;
                     StatusMessage := "AddSequencedLeaves is not implemented";
                     StatusArg := "" |}).

(** ** Sequenced-leaf store *)

(** The loop of [GetLeavesByRange]: [n] iterations remain, [i] is the loop
    counter; a missing index is skipped and the loop goes on. *)
Fixpoint GetLeavesByRange_loop (st : gmap Key Value) (id start i : Z) (n : nat)
    (ret : list LogLeaf) : outcome (list LogLeaf) :=
  match n with
  | O => Ret ret
  | S n' =>
      match st !! seqLeafKey id (wrap64 (start + i)) with
      | None => GetLeavesByRange_loop st id start (i + 1) n' ret
      | Some (VLeaf l) => GetLeavesByRange_loop st id start (i + 1) n' (ret ++ [l])
      | Some _ => Panic
      end
  end.

Definition GetLeavesByRange (t : logTreeTX) (start count : Z) : outcome (list LogLeaf) :=
  if negb (makeslice_ok count) then Panic else
  GetLeavesByRange_loop (tx t) (treeID t) start 0 (Z.to_nat count) [].

(** The inner loop of [GetLeavesByHash], over the sequence numbers of one
    bucket. *)
Fixpoint GetLeavesByHash_seq (st : gmap Key Value) (id : Z) (seq : list Z)
    (ret : list LogLeaf) : outcome (list LogLeaf) :=
  match seq with
  | [] => Ret ret
  | s :: seq' =>
      match st !! seqLeafKey id s with
      | None => GetLeavesByHash_seq st id seq' ret
      | Some (VLeaf l) => GetLeavesByHash_seq st id seq' (ret ++ [l])
      | Some _ => Panic
      end
  end.

(** The outer loop of [GetLeavesByHash], over the requested hashes. *)
Fixpoint GetLeavesByHash_loop (st : gmap Key Value) (id : Z) (m : gmap string (list Z))
    (leafHashes : list string) (ret : list LogLeaf) : outcome (list LogLeaf) :=
  match leafHashes with
  | [] => Ret ret
  | hash :: rest =>
      match m !! hash with
      | None => GetLeavesByHash_loop st id m rest ret
      | Some seq =>
          match GetLeavesByHash_seq st id seq ret with
          | Ret ret' => GetLeavesByHash_loop st id m rest ret'
          | other => other
          end
      end
  end.

Definition GetLeavesByHash (t : logTreeTX) (leafHashes : list string)
    (orderBySequence : bool) : outcome (list LogLeaf) :=
  match tx t !! hashToSeqKey (treeID t) with
  | Some (VMap m) => GetLeavesByHash_loop (tx t) (treeID t) m leafHashes []
  | _ => Panic
  end.

(** ** Signed-root lineage *)

Definition LatestSignedLogRoot (t : logTreeTX) : outcome (option SignedLogRoot) :=
  Ret (slr t).

Definition fetchLatestRoot (m : gmap Z memTree) (t : logTreeTX)
  : outcome (SignedLogRoot * Z) :=
  match m !! tree t with
  | None => Panic
  | Some tr =>
      match tx t !! sthKey (treeID t) (currentSTH tr) with
      | None => Fail ErrTreeNeedsInit
      | Some (VSLR sth) =>
          match tx t !! revKey (treeID t) (currentSTH tr) with
          | None => Fail ErrTreeNeedsInit
          | Some (VInt rev) => Ret (sth, rev)
          | Some _ => Panic
          end
      | Some _ => Panic
      end
  end.

(** [LogRootV1.UnmarshalBinary] on the bytes of a signed root (see
    [SignedLogRoot]). *)
Definition UnmarshalBinary (logRoot : option LogRootV1) : outcome LogRootV1 :=
  match logRoot with
  | Some r => Ret r
  | None => Fail ErrUnmarshal
  end.

(** [StoreSignedLogRoot] writes the two items into [t.tx] and advances
    [t.tree.currentSTH] in the storage's table right away. *)
Definition StoreSignedLogRoot (m : gmap Z memTree) (t : logTreeTX) (s : SignedLogRoot)
  : outcome unit * gmap Z memTree * logTreeTX :=
  match UnmarshalBinary (LogRoot s) with
  | Ret r =>
      let t1 := set_tx (insert (sthKey (treeID t) (TimestampNanos r)) (VSLR s)) t in
      let t2 := set_tx (insert (revKey (treeID t) (TimestampNanos r))
                               (VInt (writeRevision t))) t1 in
      match m !! tree t with
      | None => (Panic, m, t2)
      | Some tr =>
          if currentSTH tr <? TimestampNanos r
          then (Ret tt, <[tree t := set_currentSTH (TimestampNanos r) tr]> m, t2)
          else (Ret tt, m, t2)
      end
  | Fail err => (Fail err, m, t)
  | Panic => (Panic, m, t)
  end.

(** ** Moving leaves from the queue to the sequenced store *)

(** [countByMerkleHash[mh]]: a missing key reads as zero. *)
Definition count_of (c : gmap string Z) (mh : string) : Z := default 0 (c !! mh).

(** The first loop of [UpdateSequencedLeaves]: counts the leaves per Merkle
    hash, writes each leaf at its index and appends the index to the bucket of
    its hash.  A count never exceeds the number of leaves, hence never leaves
    the range of [int]. *)
Fixpoint UpdateSequencedLeaves_insert (id hashSize : Z) (leaves : list LogLeaf)
    (st : gmap Key Value) (c : gmap string Z)
  : outcome (gmap string Z) * gmap Key Value :=
  match leaves with
  | [] => (Ret c, st)
  | leaf :: rest =>
      if bool_decide (len (LeafIdentityHash leaf) ≠ hashSize)
      then (Fail (ErrSequencedHashSize (len (LeafIdentityHash leaf)) hashSize), st)
      else
        let mh := MerkleLeafHash leaf in
        let c1 := <[mh := count_of c mh + 1]> c in
        let st1 := <[seqLeafKey id (LeafIndex leaf) := VLeaf leaf]> st in
        match st1 !! hashToSeqKey id with
        | Some (VMap m) =>
            let l := default [] (m !! mh) in
            let st2 := <[hashToSeqKey id := VMap (<[mh := l ++ [LeafIndex leaf]]> m)]> st1 in
            UpdateSequencedLeaves_insert id hashSize rest st2 c1
        | _ => (Panic, st1)
        end
  end.

(** A [*list.Element] of the queue: the leaf it holds, together with the
    position it had when the queue was read, which tells the elements of one
    list apart. *)
Definition Elements (q : list LogLeaf) : list (nat * LogLeaf) :=
  imap (λ i x, (i, x)) q.

(** [countByMerkleHash[mh]--], and the key deleted when its count is zero. *)
Definition decrement (c : gmap string Z) (mh : string) : gmap string Z :=
  let c1 := <[mh := count_of c mh - 1]> c in
  if count_of c1 mh =? 0 then delete mh c1 else c1.

(** The scan of the queue, from the front, while counts remain. *)
Fixpoint UpdateSequencedLeaves_scan (e : list (nat * LogLeaf)) (c : gmap string Z)
    (toRemove : list nat) : list nat * gmap string Z :=
  match e with
  | [] => (toRemove, c)
  | x :: e' =>
      if bool_decide (0 < size c)%nat then
        let mh := MerkleLeafHash x.2 in
        if 0 <? count_of c mh
        then UpdateSequencedLeaves_scan e' (decrement c mh) (toRemove ++ [x.1])
        else UpdateSequencedLeaves_scan e' c toRemove
      else (toRemove, c)
  end.

(** [q.Remove(e)], then the loop over [toRemove]. *)
Definition Remove (e : nat) (q : list (nat * LogLeaf)) : list (nat * LogLeaf) :=
  filter (λ y, y.1 ≠ e) q.

Definition Remove_all (q : list (nat * LogLeaf)) (toRemove : list nat)
  : list (nat * LogLeaf) :=
  foldl (λ q' e, Remove e q') q toRemove.

Definition UpdateSequencedLeaves (t : logTreeTX) (leaves : list LogLeaf)
  : outcome unit * logTreeTX :=
  match UpdateSequencedLeaves_insert (treeID t) (hashSizeBytes t) leaves (tx t) ∅ with
  | (Ret c, st) =>
      match st !! unseqKey (treeID t) with
      | Some (VList q) =>
          let '(toRemove, c') := UpdateSequencedLeaves_scan (Elements q) c [] in
          let q' := (Remove_all (Elements q) toRemove).*2 in
          let t' := set_tx (λ _, <[unseqKey (treeID t) := VList q']> st) t in
          if bool_decide (size c' ≠ 0%nat)
          then (Fail (ErrUnknownLeaves (Z.of_nat (size c')) c'), t')
          else (Ret tt, t')
      | _ => (Panic, set_tx (λ _, st) t)
      end
  | (Fail err, st) => (Fail err, set_tx (λ _, st) t)
  | (Panic, st) => (Panic, set_tx (λ _, st) t)
  end.

(** ** Transactions *)

(** [rfc6962.DefaultHasher.Size()]: the size of a SHA-256 digest. *)
Definition DefaultHasher_Size : Z := 32.

Definition set_closed (b : bool) (t : logTreeTX) : logTreeTX :=
  {| tx := tx t; tree := tree t; treeID := treeID t;
     hashSizeBytes := hashSizeBytes t; writeRevision := writeRevision t;
     closed := b; root := root t; slr := slr t |}.

(** Modelled from the spec: [TreeStorage.beginTreeTX] and the methods
    [Commit] and [Close] of [treeTX] are in tree_storage.go, which is not among
    the sources.  The spec has the in-memory backend begin a transaction on a
    copy-on-write snapshot of the tree's key-value space, report an unknown
    tree ID to the caller, and start from [readRev = 0] when no root exists,
    so that [writeRev = 1]. *)
Definition beginTreeTX (m : gmap Z memTree) (id hashSize : Z) (readonly : bool)
  : outcome logTreeTX :=
  match m !! id with
  | None => Fail (ErrUnknownTree id)
  | Some tr =>
      Ret {| tx := store tr; tree := id; treeID := id; hashSizeBytes := hashSize;
             writeRevision := 1; closed := false;
             root := {| TreeSize := 0; RootHash := ""; TimestampNanos := 0; Revision := 0 |};
             slr := None |}
  end.

(** Modelled from the spec: [treeTX.Commit] is not among the sources.  The
    spec has commit persist the pending writes of the transaction: the staged
    key-value space becomes the tree's.  (The operations embedded here write no
    subtree, so there is nothing to flush.) *)
Definition Commit (m : gmap Z memTree) (t : logTreeTX)
  : option error * gmap Z memTree * logTreeTX :=
  (None, alter (set_store (tx t)) (tree t) m, set_closed true t).

(** Modelled from the spec: [treeTX.Close] is not among the sources.  The
    spec has close without commit discard the staged state and release the
    lock: the table of trees is left as it is. *)
Definition Close (m : gmap Z memTree) (t : logTreeTX)
  : option error * gmap Z memTree * logTreeTX :=
  (None, m, set_closed true t).

(** The operations a [storage.LogTXFunc] can call on its transaction. *)
Inductive Op :=
  | OpDequeueLeaves (limit cutoffTime : Z)
  | OpQueueLeaves (leaves : list LogLeaf) (queueTimestamp : Z)
  | OpAddSequencedLeaves (leaves : list LogLeaf) (timestamp : Z)
  | OpGetLeavesByRange (start count : Z)
  | OpGetLeavesByHash (leafHashes : list string) (orderBySequence : bool)
  | OpLatestSignedLogRoot
  | OpStoreSignedLogRoot (s : SignedLogRoot)
  | OpUpdateSequencedLeaves (leaves : list LogLeaf).

Definition forget {A : Type} (o : outcome A) : outcome unit :=
  match o with
  | Ret _ => Ret tt
  | Fail e => Fail e
  | Panic => Panic
  end.

(** One call on the transaction: what it reports, and the storage and the
    transaction after it. *)
Definition exec (op : Op) (m : gmap Z memTree) (t : logTreeTX)
  : outcome unit * gmap Z memTree * logTreeTX :=
  match op with
  | OpDequeueLeaves limit cutoff => (forget (DequeueLeaves t limit cutoff), m, t)
  | OpQueueLeaves leaves qts =>
      let '(o, t') := QueueLeaves t leaves qts in (forget o, m, t')
  | OpAddSequencedLeaves leaves ts => (forget (AddSequencedLeaves t leaves ts), m, t)
  | OpGetLeavesByRange start count => (forget (GetLeavesByRange t start count), m, t)
  | OpGetLeavesByHash hs o => (forget (GetLeavesByHash t hs o), m, t)
  | OpLatestSignedLogRoot => (forget (LatestSignedLogRoot t), m, t)
  | OpStoreSignedLogRoot s => StoreSignedLogRoot m t s
  | OpUpdateSequencedLeaves leaves =>
      let '(o, t') := UpdateSequencedLeaves t leaves in (o, m, t')
  end.

(** A [storage.LogTXFunc] that makes its calls in order and returns the first
    error it meets. *)
Fixpoint run (f : list Op) (m : gmap Z memTree) (t : logTreeTX)
  : outcome unit * gmap Z memTree * logTreeTX :=
  match f with
  | [] => (Ret tt, m, t)
  | op :: rest =>
      match exec op m t with
      | (Ret _, m', t') => run rest m' t'
      | other => other
      end
  end.

(** The calls made in order whatever each of them returns, as by a caller
    that looks at the errors itself: the storage and the transaction at the
    end. *)
Fixpoint exec_all (f : list Op) (m : gmap Z memTree) (t : logTreeTX)
  : gmap Z memTree * logTreeTX :=
  match f with
  | [] => (m, t)
  | op :: rest => let '(_, m', t') := exec op m t in exec_all rest m' t'
  end.

(** What [beginInternal] returns: the pair of a transaction (or nil) and an
    error (or nil), unless it panics. *)
Inductive began :=
  | Began (ltx : option logTreeTX) (err : option error)
  | BeganPanic.

Definition set_slr (s : option SignedLogRoot) (t : logTreeTX) : logTreeTX :=
  {| tx := tx t; tree := tree t; treeID := treeID t;
     hashSizeBytes := hashSizeBytes t; writeRevision := writeRevision t;
     closed := closed t; root := root t; slr := s |}.

Definition set_root_rev (r : LogRootV1) (rev : Z) (t : logTreeTX) : logTreeTX :=
  {| tx := tx t; tree := tree t; treeID := treeID t;
     hashSizeBytes := hashSizeBytes t; writeRevision := rev;
     closed := closed t; root := r; slr := slr t |}.

(** The result slice of [memoryLogStorage.QueueLeaves]: [ret[i]] for every
    [i] in the range of [existing]; entries past it stay nil, and an index
    past [leaves] is out of range. *)
Fixpoint QueueLeaves_ret (existing : list (option LogLeaf)) (leaves : list LogLeaf)
  : outcome (list (option QueuedLogLeaf)) :=
  match existing, leaves with
  | [], _ => Ret (replicate (length leaves) None)
  | _ :: _, [] => Panic
  | e :: es, l :: ls =>
      let r := match e with
               | Some x =>
                   {| Leaf := x;
                      Status_ := Some {| StatusCode := AlreadyExists;
                                         StatusMessage := "leaf already exists: %v";
                                         StatusArg := LeafIdentityHash x |} |}
               | None => {| Leaf := l; Status_ := None |}
               end in
      match QueueLeaves_ret es ls with
      | Ret rs => Ret (Some r :: rs)
      | other => other
      end
  end.

Module memoryLogStorage.

Definition beginInternal (m : gmap Z memTree) (tr : Tree) (readonly : bool) : began :=
  match beginTreeTX m (TreeId tr) DefaultHasher_Size readonly with
  | Fail err => Began None (Some err)
  | Panic => BeganPanic
  | Ret ltx =>
      match fetchLatestRoot m ltx with
      | Fail ErrTreeNeedsInit => Began (Some ltx) (Some ErrTreeNeedsInit)
      | Fail err => Began None (Some err)
      | Panic => BeganPanic
      | Ret (sth, rev) =>
          let ltx1 := set_slr (Some sth) ltx in
          match UnmarshalBinary (LogRoot sth) with
          | Ret r => Began (Some (set_root_rev r (wrap64 (rev + 1)) ltx1)) None
          | Fail err => Began None (Some err)
          | Panic => BeganPanic
          end
      end
  end.

(** The part of [ReadWriteTransaction] after a transaction was obtained. *)
Definition runAndCommit (m : gmap Z memTree) (t : logTreeTX) (f : list Op)
  : outcome unit * gmap Z memTree :=
  match run f m t with
  | (Ret _, m1, t1) =>
      match Commit m1 t1 with
      | (None, m2, _) => (Ret tt, m2)
      | (Some err, m2, _) => (Fail err, m2)
      end
  | (Fail err, m1, t1) => (Fail err, (Close m1 t1).1.2)
  | (Panic, m1, _) => (Panic, m1)
  end.

Definition is_ErrTreeNeedsInit (err : option error) : bool :=
  match err with
  | Some ErrTreeNeedsInit => true
  | _ => false
  end.

(** [f] runs inside the transaction; the transaction commits when [f]
    returns no error and is closed without commit otherwise (the deferred
    [tx.Close()], which does nothing after a commit). *)
Definition ReadWriteTransaction (m : gmap Z memTree) (tr : Tree) (f : list Op)
  : outcome unit * gmap Z memTree :=
  match beginInternal m tr false with
  | BeganPanic => (Panic, m)
  | Began ltx err =>
      match err with
      | Some e =>
          if negb (is_ErrTreeNeedsInit err) then (Fail e, m) else
          match ltx with
          | None => (Panic, m)
          | Some t => runAndCommit m t f
          end
      | None =>
          match ltx with
          | None => (Panic, m)
          | Some t => runAndCommit m t f
          end
      end
  end.

Definition SnapshotForTree (m : gmap Z memTree) (tr : Tree) : began :=
  match beginInternal m tr true with
  | Began ltx (Some err) => Began None (Some err)
  | other => other
  end.

Definition AddSequencedLeaves (m : gmap Z memTree) (tr : Tree) (leaves : list LogLeaf)
    (timestamp : Z) : outcome (list QueuedLogLeaf) :=
  Fail (ErrStatus {| StatusCode := Unimplemented;
                     StatusMessage := "AddSequencedLeaves is not implemented";
                     StatusArg := "" |}).

Definition QueueLeaves (m : gmap Z memTree) (tr : Tree) (leaves : list LogLeaf)
    (queueTimestamp : Z) : outcome (list (option QueuedLogLeaf)) * gmap Z memTree :=
  match beginInternal m tr false with
  | BeganPanic => (Panic, m)
  | Began (Some t) (Some err) => (Fail err, (Close m t).1.2)
  | Began None (Some err) => (Fail err, m)
  | Began None None => (Panic, m)
  | Began (Some t) None =>
      match QueueLeaves t leaves queueTimestamp with
      | (Fail err, t1) => (Fail err, (Close m t1).1.2)
      | (Panic, _) => (Panic, m)
      | (Ret existing, t1) =>
          match Commit m t1 with
          | (Some err, m2, _) => (Fail err, m2)
          | (None, m2, _) => (QueueLeaves_ret existing leaves, m2)
          end
      end
  end.

End memoryLogStorage.

(** ** Listing the logs, naming the keys *)

(** The loop of [GetActiveLogIDs] over the trees of the storage: a deleted
    tree is passed over, and so is a tree that is not a log in the ACTIVE or
    DRAINING state. *)
Fixpoint GetActiveLogIDs_loop (trees : list (Z * memTree)) (ret : list Z) : list Z :=
  match trees with
  | [] => ret
  | (id, tr) :: rest =>
      if Deleted (meta tr) then GetActiveLogIDs_loop rest ret else
      match TreeType_ (meta tr) with
      | LOG | PREORDERED_LOG =>
          match TreeState_ (meta tr) with
          | ACTIVE | DRAINING => GetActiveLogIDs_loop rest (ret ++ [id])
          | _ => GetActiveLogIDs_loop rest ret
          end
      end
  end.

(** [memoryLogStorage.GetActiveLogIDs].  Go ranges over [m.trees] in an order
    it does not fix; the order of [map_to_list] stands for that order. *)
Definition GetActiveLogIDs (m : gmap Z memTree) : list Z :=
  GetActiveLogIDs_loop (map_to_list m) [].

(** [labelForTX]: [strconv.FormatInt(t.treeID, 10)]. *)
Definition labelForTX (t : logTreeTX) : string := pretty (treeID t).

Fixpoint zeros (n : nat) : string :=
  match n with
  | O => ""
  | S n' => String "0"%char (zeros n')
  end.

(** Padding with zeros on the left up to a width; a longer string is left as
    it is. *)
Definition zero_pad (w : nat) (s : string) : string :=
  zeros (w - String.length s) +:+ s.

(** The verb [%d] of [fmt.Sprintf]. *)
Definition fmt_d (z : Z) : string := pretty z.

(** The verb [%020d]: the width of 20 counts the sign, and the zeros come
    after it. *)
Definition fmt_020d (z : Z) : string :=
  match z with
  | Zneg p => "-" +:+ zero_pad 19 (pretty (Zpos p))
  | _ => zero_pad 20 (pretty z)
  end.

(** The string each key stands for, as the five functions of the source
    format it. *)
Definition Key_string (k : Key) : string :=
  match k with
  | unseqKey id => "/" +:+ fmt_d id +:+ "/unseq"
  | seqLeafKey id seq => "/" +:+ fmt_d id +:+ "/seq/" +:+ fmt_020d seq
  | hashToSeqKey id => "/" +:+ fmt_d id +:+ "/h2s"
  | sthKey id ts => "/" +:+ fmt_d id +:+ "/sth/" +:+ fmt_020d ts
  | revKey id ts => "/" +:+ fmt_d id +:+ "/rev/" +:+ fmt_020d ts
  end.

(** ** Notions used to state the properties *)

(** Every item holds the kind of value its key is made for. *)
Definition item_ok (k : Key) (v : Value) : bool :=
  match k, v with
  | unseqKey _, VList _ => true
  | seqLeafKey _ _, VLeaf _ => true
  | hashToSeqKey _, VMap _ => true
  | sthKey _ _, VSLR _ => true
  | revKey _ _, VInt _ => true
  | _, _ => false
  end.

Definition store_ok (st : gmap Key Value) : Prop :=
  map_Forall (λ k v, item_ok k v = true) st.

(** The leaf sequenced at index [i], if there is one. *)
Definition leaf_at (st : gmap Key Value) (id i : Z) : option LogLeaf :=
  match st !! seqLeafKey id i with
  | Some (VLeaf l) => Some l
  | _ => None
  end.

(** The Merkle-hash index lists, for every hash, the indices of the
    sequenced leaves with that hash, and nothing else. *)
Definition h2s_consistent (st : gmap Key Value) (id : Z) (mp : gmap string (list Z))
  : Prop :=
  ∀ h i, (∃ seq, mp !! h = Some seq ∧ i ∈ seq) ↔
         (∃ l, leaf_at st id i = Some l ∧ MerkleLeafHash l = h).

(** The leaves the index gives for one hash, in the order of its bucket. *)
Definition bucket_leaves (st : gmap Key Value) (id : Z) (mp : gmap string (list Z))
    (h : string) : list LogLeaf :=
  omap (leaf_at st id) (default [] (mp !! h)).

(** How many times a hash occurs in a list of hashes. *)
Definition occ (h : string) (hs : list string) : nat := count_occ String.string_dec hs h.

(** Every count held in the map is positive: a key is deleted when its count
    reaches zero. *)
Definition positive_counts (c : gmap string Z) : Prop :=
  ∀ h v, c !! h = Some v → 0 < v.

(** The scan of [UpdateSequencedLeaves] told as a split of the queue into
    the elements it marks for removal and those it keeps. *)
Fixpoint scan_split {A : Type} (hash : A → string) (e : list A) (c : gmap string Z)
  : list A * list A * gmap string Z :=
  match e with
  | [] => ([], [], c)
  | x :: e' =>
      if bool_decide (0 < size c)%nat then
        if 0 <? count_of c (hash x) then
          let '(rm, kp, c') := scan_split hash e' (decrement c (hash x)) in
          (x :: rm, kp, c')
        else
          let '(rm, kp, c') := scan_split hash e' c in
          (rm, x :: kp, c')
      else ([], e, c)
  end.

(** A character occurs in a string. *)
Fixpoint has_char (c : Ascii.ascii) (s : string) : Prop :=
  match s with
  | EmptyString => False
  | String c' s' => c = c' ∨ has_char c s'
  end.

(** The ten decimal digits. *)
Definition is_digit (c : Ascii.ascii) : Prop := ∃ n, c = pretty_N_char n.

(** A decimal numeral: not empty, and with a leading zero only when it is
    the numeral of zero. *)
Definition numeral (s : string) : Prop :=
  s ≠ "" ∧ ∀ r, s = String "0"%char r → r = "".

(** The scan of the queue told without the map of counts: an entry is taken
    when leaves of its hash are still wanted, and kept otherwise. *)
Fixpoint consume (need : string → nat) (q : list LogLeaf) : list LogLeaf :=
  match q with
  | [] => []
  | x :: q' =>
      match need (MerkleLeafHash x) with
      | O => x :: consume need q'
      | S k =>
          consume (λ h, if decide (h = MerkleLeafHash x) then k else need h) q'
      end
  end.

(** The keys a call may write in the key-value space of a transaction on
    tree [id]. *)
Definition touches (op : Op) (id : Z) (k : Key) : Prop :=
  match op with
  | OpQueueLeaves _ _ => k = unseqKey id
  | OpStoreSignedLogRoot s =>
      match LogRoot s with
      | Some r => k = sthKey id (TimestampNanos r) ∨ k = revKey id (TimestampNanos r)
      | None => False
      end
  | OpUpdateSequencedLeaves leaves =>
      k = unseqKey id ∨ k = hashToSeqKey id ∨
      ∃ l, l ∈ leaves ∧ k = seqLeafKey id (LeafIndex l)
  | _ => False
  end.

(** A transaction whose key-value space is well typed and holds the queue and
    the hash index, and whose tree is in the storage's table. *)
Definition tx_ready (m : gmap Z memTree) (t : logTreeTX) : Prop :=
  store_ok (tx t) ∧
  is_Some (tx t !! unseqKey (treeID t)) ∧
  is_Some (tx t !! hashToSeqKey (treeID t)) ∧
  is_Some (m !! tree t).


(** ** Sample trees

    Tree 17 with one signed root at timestamp 1000, used to run the
    operations on concrete inputs. *)

Definition h32 (c : string) : string :=
  c +:+ "0000000000000000000000000000000".

Definition mkLeaf (identity merkle : string) (index qts : Z) : LogLeaf :=
  {| MerkleLeafHash := merkle; LeafValue := ""; ExtraData := "";
     LeafIndex := index; LeafIdentityHash := identity;
     QueueTimestamp := qts; IntegrateTimestamp := 0 |}.

Definition mkRoot (size ts : Z) (sig : string) : SignedLogRoot :=
  {| LogRoot := Some {| TreeSize := size; RootHash := ""; TimestampNanos := ts;
                        Revision := 0 |};
     LogRootSignature := sig |}.

Definition leafA : LogLeaf := mkLeaf (h32 "a") (h32 "A") 0 1000.
Definition leafB : LogLeaf := mkLeaf (h32 "b") (h32 "B") 1 1001.
Definition leafC : LogLeaf := mkLeaf (h32 "c") (h32 "C") 2 2000.

Definition meta17 : Tree :=
  {| TreeId := 17; TreeType_ := LOG; TreeState_ := ACTIVE; Deleted := false |}.

Definition meta18 : Tree :=
  {| TreeId := 18; TreeType_ := PREORDERED_LOG; TreeState_ := ACTIVE; Deleted := false |}.

Definition store17 (q : list LogLeaf) : gmap Key Value :=
  <[unseqKey 17 := VList q]>
    (<[hashToSeqKey 17 := VMap ∅]>
       (<[sthKey 17 1000 := VSLR (mkRoot 0 1000 "s1")]>
          (<[revKey 17 1000 := VInt 1]> ∅))).

Definition trees17 (q : list LogLeaf) : gmap Z memTree :=
  {[ 17 := {| store := store17 q; currentSTH := 1000; meta := meta17 |} ]}.

(** A transaction on tree 17 as [beginInternal] makes it. *)
Definition tx17 (q : list LogLeaf) : logTreeTX :=
  {| tx := store17 q; tree := 17; treeID := 17; hashSizeBytes := 32;
     writeRevision := 2; closed := false;
     root := {| TreeSize := 0; RootHash := ""; TimestampNanos := 1000; Revision := 0 |};
     slr := Some (mkRoot 0 1000 "s1") |}.

(** Tree 17 with [leafA] both sequenced at index 0 and waiting in the
    queue. *)
Definition storeDup : gmap Key Value :=
  <[seqLeafKey 17 0 := VLeaf leafA]>
    (<[hashToSeqKey 17 := VMap {[ h32 "A" := [0] ]}]> (store17 [leafA])).

Definition treesDup : gmap Z memTree :=
  {[ 17 := {| store := storeDup; currentSTH := 1000; meta := meta17 |} ]}.

(** The key-value space after [leafA] and [leafB] were sequenced at 0 and 1. *)
Definition storeAB : gmap Key Value :=
  <[seqLeafKey 17 0 := VLeaf leafA]>
    (<[seqLeafKey 17 1 := VLeaf leafB]>
       (<[hashToSeqKey 17 := VMap (<[h32 "B" := [1]]> {[ h32 "A" := [0] ]})]>
          (store17 []))).

(** The key-value space after [leafA] and [leafC] were sequenced at 0 and 2:
    index 1 is missing. *)
Definition storeAC : gmap Key Value :=
  <[seqLeafKey 17 0 := VLeaf leafA]>
    (<[seqLeafKey 17 2 := VLeaf leafC]>
       (<[hashToSeqKey 17 := VMap (<[h32 "C" := [2]]> {[ h32 "A" := [0] ]})]>
          (store17 []))).

(** A leaf with the Merkle hash of [leafA] and an identity hash of five
    bytes. *)
Definition leafShort : LogLeaf := mkLeaf "short" (h32 "A") 0 1000.

(** Transactions on tree 17 over these key-value spaces. *)
Definition txAB : logTreeTX := set_tx (λ _, storeAB) (tx17 []).
Definition txAC : logTreeTX := set_tx (λ _, storeAC) (tx17 []).

(** * Properties *)

Lemma tx17_begun q :
  memoryLogStorage.beginInternal (trees17 q) meta17 false = Began (Some (tx17 q)) None.
Proof. vm_compute. reflexivity. Qed.

(** ** The leaf queue *)

Lemma DequeueLeaves_loop_take (q : list LogLeaf) : ∀ i limit acc,
  DequeueLeaves_loop i limit q acc = acc ++ take (Z.to_nat (limit - i)) q.
Proof.
  induction q as [|x q IH]; intros i limit acc; simpl.
  - by rewrite take_nil, app_nil_r.
  - destruct (i <? limit) eqn:Hlt.
    + apply Z.ltb_lt in Hlt. rewrite IH.
      replace (Z.to_nat (limit - i)) with (S (Z.to_nat (limit - (i + 1)))) by lia.
      simpl. by rewrite <- app_assoc.
    + apply Z.ltb_ge in Hlt.
      replace (Z.to_nat (limit - i)) with O by lia.
      by rewrite app_nil_r.
Qed.


(** C4.  [DequeueLeaves] does not look at the cutoff time: with [leafC],
    queued at time 2000, alone in the queue and a cutoff of 1000, the call
    returns [leafC], an entry whose queue timestamp is greater than the
    cutoff. *)
Theorem DequeueLeaves_returns_entry_after_cutoff :
  DequeueLeaves (tx17 [leafC]) 1 1000 = Ret [leafC] ∧
  1000 < QueueTimestamp leafC.
Proof. split; [vm_compute; reflexivity | simpl; lia]. Qed.

(** C9.  [AddSequencedLeaves] returns Unimplemented for every tree, whatever
    its type, on the storage as on a transaction; it is a pure function of its
    arguments and stores nothing. *)
Theorem AddSequencedLeaves_always_Unimplemented
    (m : gmap Z memTree) (tr : Tree) (t : logTreeTX) (leaves : list LogLeaf) (ts : Z) :
  (∃ s, memoryLogStorage.AddSequencedLeaves m tr leaves ts = Fail (ErrStatus s) ∧
        StatusCode s = Unimplemented) ∧
  (∃ s, AddSequencedLeaves t leaves ts = Fail (ErrStatus s) ∧
        StatusCode s = Unimplemented).
Proof. split; eexists; (split; [reflexivity | reflexivity]). Qed.

(** C9, as stated, fails: on the PREORDERED_LOG tree 18 the call returns
    Unimplemented for leaves that carry their own indices. *)
Lemma AddSequencedLeaves_preordered_Unimplemented :
  TreeType_ meta18 = PREORDERED_LOG ∧
  ∃ s, memoryLogStorage.AddSequencedLeaves
         {[ 18 := {| store := ∅; currentSTH := 0; meta := meta18 |} ]}
         meta18 [leafA; leafC] 3000 = Fail (ErrStatus s) ∧
       StatusCode s = Unimplemented.
Proof. split; [reflexivity | eexists; split; reflexivity]. Qed.

Lemma QueueLeaves_check_bad (hashSize : Z) (leaves : list LogLeaf) :
  Exists (λ l, len (LeafIdentityHash l) ≠ hashSize) leaves →
  QueueLeaves_check hashSize leaves = Some (ErrQueuedHashSize hashSize).
Proof.
  induction 1 as [l ls Hbad | l ls _ IH]; simpl.
  - by rewrite bool_decide_eq_true_2.
  - by destruct (bool_decide _).
Qed.

Lemma QueueLeaves_check_good (hashSize : Z) (leaves : list LogLeaf) :
  Forall (λ l, len (LeafIdentityHash l) = hashSize) leaves →
  QueueLeaves_check hashSize leaves = None.
Proof.
  induction 1 as [| l ls Hgood _ IH]; simpl; [done|].
  rewrite bool_decide_eq_false_2; [done | by intros []].
Qed.

(** What a transaction made by [beginInternal] looks like. *)
Lemma beginInternal_tx (m : gmap Z memTree) (tr : Tree) (ro : bool)
    (t : logTreeTX) (err : option error) :
  memoryLogStorage.beginInternal m tr ro = Began (Some t) err →
  ∃ mt, m !! TreeId tr = Some mt ∧ tx t = store mt ∧ tree t = TreeId tr ∧
        treeID t = TreeId tr ∧ hashSizeBytes t = DefaultHasher_Size.
Proof.
  unfold memoryLogStorage.beginInternal, beginTreeTX.
  destruct (m !! TreeId tr) as [mt|] eqn:Hmt; [|discriminate].
  intros H. exists mt. split; [done|].
  destruct (fetchLatestRoot _ _) as [[sth rev]|e|]; [| |discriminate].
  - destruct (UnmarshalBinary _); [|discriminate..].
    injection H as <- _. done.
  - destruct e; try discriminate. injection H as <- _. done.
Qed.

(** [beginInternal] returns a transaction, an error, or both. *)
Lemma beginInternal_not_nil_nil (m : gmap Z memTree) (tr : Tree) (ro : bool) :
  memoryLogStorage.beginInternal m tr ro ≠ Began None None.
Proof.
  unfold memoryLogStorage.beginInternal.
  destruct (beginTreeTX _ _ _ _); try discriminate.
  destruct (fetchLatestRoot _ _) as [[sth rev]|e|]; try discriminate.
  - destruct (UnmarshalBinary _); discriminate.
  - destruct e; discriminate.
Qed.

(** C8.  A batch with a leaf whose identity hash has not the hasher's size is
    rejected as a whole: the transaction-level call returns the error and
    leaves the transaction, its queue included, as it was; the storage-level
    call returns an error (the hash-size error once the transaction has begun)
    and leaves the storage as it was. *)
Theorem QueueLeaves_rejects_whole_batch (hashSize : Z) (leaves : list LogLeaf) :
  Exists (λ l, len (LeafIdentityHash l) ≠ hashSize) leaves →
  (∀ t qts, hashSizeBytes t = hashSize →
     QueueLeaves t leaves qts = (Fail (ErrQueuedHashSize hashSize), t)) ∧
  (hashSize = DefaultHasher_Size →
   ∀ m tr qts,
     (memoryLogStorage.QueueLeaves m tr leaves qts).2 = m ∧
     (memoryLogStorage.beginInternal m tr false ≠ BeganPanic →
      ∃ err, (memoryLogStorage.QueueLeaves m tr leaves qts).1 = Fail err) ∧
     (∀ t, memoryLogStorage.beginInternal m tr false = Began (Some t) None →
        (memoryLogStorage.QueueLeaves m tr leaves qts).1
        = Fail (ErrQueuedHashSize hashSize))).
Proof.
  intros Hbad.
  assert (Htx : ∀ t qts, hashSizeBytes t = hashSize →
            QueueLeaves t leaves qts = (Fail (ErrQueuedHashSize hashSize), t)).
  { intros t qts <-. unfold QueueLeaves. by rewrite QueueLeaves_check_bad. }
  split; [exact Htx|].
  intros -> m tr qts. unfold memoryLogStorage.QueueLeaves.
  pose proof (beginInternal_not_nil_nil m tr false) as Hnn.
  destruct (memoryLogStorage.beginInternal m tr false) as [[t|] [e|]|] eqn:Hb;
    simpl; try (split; [done|split; [by eauto|intros; discriminate]]).
  apply beginInternal_tx in Hb as (mt & _ & _ & _ & _ & Hsz).
  rewrite (Htx t qts Hsz). simpl.
  split; [done|]. split; [by eauto|]. by intros t' [= <-].
Qed.

Lemma QueueLeaves_rejects_whole_batch_witness :
  QueueLeaves (tx17 [leafA]) [leafB; mkLeaf "short" (h32 "C") 2 2000] 3000
  = (Fail (ErrQueuedHashSize 32), tx17 [leafA]).
Proof.
  apply (QueueLeaves_rejects_whole_batch 32 [leafB; mkLeaf "short" (h32 "C") 2 2000]).
  - apply Exists_cons_tl, Exists_cons_hd. vm_compute. discriminate.
  - reflexivity.
Defined.

(** ** The signed-root lineage *)

Lemma exec_slr (op : Op) (m : gmap Z memTree) (t : logTreeTX) :
  slr (exec op m t).2 = slr t.
Proof.
  destruct op; simpl; try done.
  - unfold QueueLeaves. destruct (QueueLeaves_check _ _); [done|].
    by destruct (tx t !! _) as [[]|].
  - unfold StoreSignedLogRoot. destruct (UnmarshalBinary _); try done.
    destruct (m !! tree t); [|done]. by destruct (_ <? _).
  - unfold UpdateSequencedLeaves.
    destruct (UpdateSequencedLeaves_insert _ _ _ _ _) as [[c|e|] st]; try done.
    destruct (st !! _) as [[q| | | |]|]; try done.
    destruct (UpdateSequencedLeaves_scan _ _ _) as [toRemove c'].
    by destruct (bool_decide _).
Qed.

Lemma exec_all_slr (f : list Op) : ∀ m t, slr (exec_all f m t).2 = slr t.
Proof.
  induction f as [|op f IH]; intros m t; simpl; [done|].
  pose proof (exec_slr op m t) as Hop.
  destruct (exec op m t) as [[o m'] t']. simpl in Hop.
  by rewrite IH.
Qed.

(** C10.  In a transaction made by [beginInternal], [LatestSignedLogRoot]
    returns the signed root fetched at begin (nil when the tree has none),
    and goes on returning it after any calls on the transaction,
    [StoreSignedLogRoot] among them. *)
Theorem LatestSignedLogRoot_fixed_at_begin
    (m : gmap Z memTree) (tr : Tree) (ro : bool) (t : logTreeTX) (err : option error) :
  memoryLogStorage.beginInternal m tr ro = Began (Some t) err →
  (∀ t0, beginTreeTX m (TreeId tr) DefaultHasher_Size ro = Ret t0 →
     LatestSignedLogRoot t
     = Ret (match fetchLatestRoot m t0 with
            | Ret (sth, _) => Some sth
            | _ => None
            end)) ∧
  (∀ f m', LatestSignedLogRoot (exec_all f m' t).2 = LatestSignedLogRoot t).
Proof.
  intros Hb. split.
  - intros t0 Ht0. unfold memoryLogStorage.beginInternal in Hb.
    rewrite Ht0 in Hb. unfold LatestSignedLogRoot. f_equal.
    assert (slr t0 = None) as Hnil.
    { unfold beginTreeTX in Ht0. destruct (m !! TreeId tr); [|discriminate].
      by injection Ht0 as <-. }
    destruct (fetchLatestRoot m t0) as [[sth rev]|e|]; [| |discriminate].
    + destruct (UnmarshalBinary _); [|discriminate..]. by injection Hb as <- _.
    + destruct e; try discriminate. by injection Hb as <- _.
  - intros f m'. unfold LatestSignedLogRoot. by rewrite exec_all_slr.
Qed.

Lemma LatestSignedLogRoot_fixed_at_begin_witness :
  LatestSignedLogRoot
    (exec_all [OpStoreSignedLogRoot (mkRoot 1 2000 "s2"); OpLatestSignedLogRoot]
              (trees17 []) (tx17 [])).2
  = LatestSignedLogRoot (tx17 []).
Proof.
  apply (LatestSignedLogRoot_fixed_at_begin (trees17 []) meta17 false (tx17 []) None).
  vm_compute. reflexivity.
Defined.

(** C7.  [StoreSignedLogRoot] puts the signed root under its timestamp and
    the write revision beside it, replacing whatever was stored under that
    timestamp, touches no other item and returns no error; the one error is
    a log root that does not unmarshal, and then nothing is stored. *)
Theorem StoreSignedLogRoot_replaces
    (m : gmap Z memTree) (t : logTreeTX) (s : SignedLogRoot) (tr : memTree) :
  m !! tree t = Some tr →
  (∀ r, LogRoot s = Some r →
     (StoreSignedLogRoot m t s).1.1 = Ret tt ∧
     tx (StoreSignedLogRoot m t s).2 !! sthKey (treeID t) (TimestampNanos r)
       = Some (VSLR s) ∧
     tx (StoreSignedLogRoot m t s).2 !! revKey (treeID t) (TimestampNanos r)
       = Some (VInt (writeRevision t)) ∧
     (∀ k, k ≠ sthKey (treeID t) (TimestampNanos r) →
           k ≠ revKey (treeID t) (TimestampNanos r) →
           tx (StoreSignedLogRoot m t s).2 !! k = tx t !! k)) ∧
  (LogRoot s = None → StoreSignedLogRoot m t s = (Fail ErrUnmarshal, m, t)).
Proof.
  intros Htr. unfold StoreSignedLogRoot. split.
  - intros r ->. simpl. rewrite Htr.
    destruct (currentSTH tr <? TimestampNanos r); simpl;
      (split; [done|]; split; [|split]);
      try (rewrite lookup_insert_ne by done; apply lookup_insert_eq);
      try apply lookup_insert_eq;
      intros k Hk1 Hk2; by rewrite !lookup_insert_ne.
  - by intros ->.
Qed.

Lemma StoreSignedLogRoot_replaces_witness :
  (StoreSignedLogRoot (trees17 []) (tx17 []) (mkRoot 1 2000 "s2")).1.1 = Ret tt ∧
  tx (StoreSignedLogRoot (trees17 []) (tx17 []) (mkRoot 1 2000 "s2")).2
    !! sthKey 17 2000 = Some (VSLR (mkRoot 1 2000 "s2")).
Proof.
  destruct (StoreSignedLogRoot_replaces (trees17 []) (tx17 []) (mkRoot 1 2000 "s2")
              {| store := store17 []; currentSTH := 1000; meta := meta17 |})
    as [Hstore _].
  - vm_compute. reflexivity.
  - destruct (Hstore _ eq_refl) as (Hret & Hsth & _). split; [exact Hret | exact Hsth].
Defined.

(** C7, as stated, fails: a signed root is stored under timestamp 1000, a
    second one with the same timestamp is stored without error and takes the
    place of the first. *)
Lemma StoreSignedLogRoot_overwrites_on_collision :
  tx (tx17 []) !! sthKey 17 1000 = Some (VSLR (mkRoot 0 1000 "s1")) ∧
  (StoreSignedLogRoot (trees17 []) (tx17 []) (mkRoot 5 1000 "other")).1.1 = Ret tt ∧
  tx (StoreSignedLogRoot (trees17 []) (tx17 []) (mkRoot 5 1000 "other")).2
    !! sthKey 17 1000 = Some (VSLR (mkRoot 5 1000 "other")) ∧
  mkRoot 0 1000 "s1" ≠ mkRoot 5 1000 "other".
Proof.
  split; [vm_compute; reflexivity|].
  split; [vm_compute; reflexivity|].
  split; [vm_compute; reflexivity|].
  discriminate.
Qed.

(** A call of [StoreSignedLogRoot] with a later timestamp moves the tree's
    [currentSTH] in the storage at once, and closing the transaction without
    commit leaves it there. *)
Lemma StoreSignedLogRoot_Close_currentSTH
    (m : gmap Z memTree) (t : logTreeTX) (s : SignedLogRoot) (r : LogRootV1)
    (tr : memTree) :
  m !! tree t = Some tr →
  LogRoot s = Some r →
  currentSTH tr < TimestampNanos r →
  let '(_, m1, t1) := StoreSignedLogRoot m t s in
  currentSTH <$> (Close m1 t1).1.2 !! tree t = Some (TimestampNanos r) ∧
  store <$> (Close m1 t1).1.2 !! tree t = Some (store tr).
Proof.
  intros Htr Hs Hlt. unfold StoreSignedLogRoot. rewrite Hs. simpl. rewrite Htr.
  apply Z.ltb_lt in Hlt. rewrite Hlt. simpl.
  by rewrite lookup_insert_eq.
Qed.

(** C2.  On tree 17 (current root at timestamp 1000) a call of
    [StoreSignedLogRoot] with a root of timestamp 2000 sets the tree's
    [currentSTH] to 2000 in the storage before any commit.  A transaction that
    makes this call and then fails is closed without commit, and still the
    tree's [currentSTH] is 2000 afterwards, not 1000; its key-value space is as
    before, holds no root for 2000, and the next snapshot reports a tree that
    needs initialising. *)
Theorem StoreSignedLogRoot_rollback_keeps_currentSTH_advanced :
  currentSTH <$> trees17 [] !! 17 = Some 1000 ∧
  currentSTH <$>
    (StoreSignedLogRoot (trees17 []) (tx17 []) (mkRoot 0 2000 "s2")).1.2 !! 17
  = Some 2000 ∧
  (∃ err,
     (memoryLogStorage.ReadWriteTransaction (trees17 []) meta17
        [OpStoreSignedLogRoot (mkRoot 0 2000 "s2"); OpAddSequencedLeaves [leafA] 3000]).1
     = Fail err) ∧
  currentSTH <$>
    (memoryLogStorage.ReadWriteTransaction (trees17 []) meta17
       [OpStoreSignedLogRoot (mkRoot 0 2000 "s2"); OpAddSequencedLeaves [leafA] 3000]).2
    !! 17 = Some 2000 ∧
  store <$>
    (memoryLogStorage.ReadWriteTransaction (trees17 []) meta17
       [OpStoreSignedLogRoot (mkRoot 0 2000 "s2"); OpAddSequencedLeaves [leafA] 3000]).2
    !! 17 = Some (store17 []) ∧
  memoryLogStorage.SnapshotForTree
    (memoryLogStorage.ReadWriteTransaction (trees17 []) meta17
       [OpStoreSignedLogRoot (mkRoot 0 2000 "s2"); OpAddSequencedLeaves [leafA] 3000]).2
    meta17 = Began None (Some ErrTreeNeedsInit).
Proof.
  split; [vm_compute; reflexivity|].
  split; [vm_compute; reflexivity|].
  split; [eexists; vm_compute; reflexivity|].
  split; [vm_compute; reflexivity|].
  split; vm_compute; reflexivity.
Qed.

(** ** Queueing through the storage *)

Lemma PushBack_all_app (leaves : list LogLeaf) : ∀ q, PushBack_all q leaves = q ++ leaves.
Proof.
  induction leaves as [|l ls IH]; intros q; simpl.
  - by rewrite app_nil_r.
  - by rewrite IH, <- app_assoc.
Qed.

Lemma QueueLeaves_ret_all_nil (leaves : list LogLeaf) :
  QueueLeaves_ret (replicate (length leaves) None) leaves
  = Ret (map (λ l, Some {| Leaf := l; Status_ := None |}) leaves).
Proof.
  induction leaves as [|l ls IH]; simpl; [done|]. by rewrite IH.
Qed.

(** On valid leaves the transaction-level call appends the whole batch and
    reports a nil entry, no existing leaf, at every position. *)
Lemma QueueLeaves_appends (t : logTreeTX) (q leaves : list LogLeaf) (qts : Z) :
  tx t !! unseqKey (treeID t) = Some (VList q) →
  Forall (λ l, len (LeafIdentityHash l) = hashSizeBytes t) leaves →
  QueueLeaves t leaves qts
  = (Ret (replicate (length leaves) None),
     set_tx (insert (unseqKey (treeID t)) (VList (q ++ leaves))) t).
Proof.
  intros Hq Hgood. unfold QueueLeaves.
  by rewrite (QueueLeaves_check_good _ _ Hgood), Hq, PushBack_all_app.
Qed.

(** C1.  On a tree that has a signed root, every leaf of a batch whose
    identity hashes have the hasher's size is appended to the queue, in the
    order of the batch, and is reported at its position with the leaf as
    submitted and the OK status, be its identity hash already queued or
    sequenced or not. *)
Theorem QueueLeaves_appends_every_leaf
    (m : gmap Z memTree) (tr : Tree) (t : logTreeTX) (mt : memTree)
    (q leaves : list LogLeaf) (qts : Z) :
  memoryLogStorage.beginInternal m tr false = Began (Some t) None →
  m !! TreeId tr = Some mt →
  store mt !! unseqKey (TreeId tr) = Some (VList q) →
  Forall (λ l, len (LeafIdentityHash l) = DefaultHasher_Size) leaves →
  memoryLogStorage.QueueLeaves m tr leaves qts
  = (Ret (map (λ l, Some {| Leaf := l; Status_ := None |}) leaves),
     <[TreeId tr :=
         set_store (<[unseqKey (TreeId tr) := VList (q ++ leaves)]> (store mt)) mt]> m) ∧
  Forall (λ r, ∃ x, r = Some x ∧ GetStatusCode x = OK)
         (map (λ l, Some {| Leaf := l; Status_ := None |}) leaves).
Proof.
  intros Hb Hmt Hq Hgood. split.
  - unfold memoryLogStorage.QueueLeaves. rewrite Hb.
    apply beginInternal_tx in Hb as (mt' & Hmt' & Htx & Htree & Hid & Hsz).
    assert (mt' = mt) as -> by congruence.
    rewrite (QueueLeaves_appends t q leaves qts).
    + unfold Commit. simpl. rewrite QueueLeaves_ret_all_nil.
      f_equal. rewrite Htree, Hid, Htx.
      apply map_eq. intros k. rewrite lookup_alter, lookup_insert.
      destruct (decide (TreeId tr = k)) as [<-|]; [|done].
      by rewrite Hmt.
    + by rewrite Htx, Hid.
    + by rewrite Hsz.
  - clear. induction leaves as [|l ls IH]; simpl; constructor; [by eexists | done].
Qed.

Lemma QueueLeaves_appends_every_leaf_witness :
  memoryLogStorage.QueueLeaves (trees17 [leafA]) meta17 [leafB; leafC] 3000
  = (Ret [Some {| Leaf := leafB; Status_ := None |};
          Some {| Leaf := leafC; Status_ := None |}],
     <[17 := set_store (<[unseqKey 17 := VList [leafA; leafB; leafC]]> (store17 [leafA]))
               {| store := store17 [leafA]; currentSTH := 1000; meta := meta17 |}]>
       (trees17 [leafA])).
Proof.
  apply (QueueLeaves_appends_every_leaf (trees17 [leafA]) meta17 (tx17 [leafA])
           {| store := store17 [leafA]; currentSTH := 1000; meta := meta17 |}
           [leafA] [leafB; leafC] 3000).
  - vm_compute. reflexivity.
  - vm_compute. reflexivity.
  - vm_compute. reflexivity.
  - repeat constructor.
Defined.

(** C1, as stated, fails: [leafA] is sequenced at index 0 and is waiting in
    the queue; queueing it again reports it with the OK status, not
    AlreadyExists, and puts it in the queue a second time. *)
Lemma QueueLeaves_no_dedup :
  storeDup !! seqLeafKey 17 0 = Some (VLeaf leafA) ∧
  storeDup !! unseqKey 17 = Some (VList [leafA]) ∧
  (memoryLogStorage.QueueLeaves treesDup meta17 [leafA] 5000).1
  = Ret [Some {| Leaf := leafA; Status_ := None |}] ∧
  GetStatusCode {| Leaf := leafA; Status_ := None |} = OK ∧
  ((memoryLogStorage.QueueLeaves treesDup meta17 [leafA] 5000).2 !! 17
     ≫= λ mt, store mt !! unseqKey 17) = Some (VList [leafA; leafA]).
Proof.
  split; [vm_compute; reflexivity|].
  split; [vm_compute; reflexivity|].
  split; [vm_compute; reflexivity|].
  split; vm_compute; reflexivity.
Qed.

(** ** Reading sequenced leaves *)


Lemma store_ok_leaf (st : gmap Key Value) (id i : Z) (v : Value) :
  store_ok st → st !! seqLeafKey id i = Some v → ∃ l, v = VLeaf l.
Proof.
  intros Hok Hv. specialize (Hok _ _ Hv). destruct v; try discriminate. by eexists.
Qed.

Lemma omap_cons_match {A B : Type} (f : A → option B) (x : A) (l : list A) :
  omap f (x :: l) = match f x with Some y => y :: omap f l | None => omap f l end.
Proof. reflexivity. Qed.





Lemma store_ok_decide (st : gmap Key Value) :
  bool_decide (store_ok st) = true → store_ok st.
Proof. intros H. by apply bool_decide_eq_true in H. Qed.


Lemma storeAB_ok : store_ok (tx txAB).
Proof. apply store_ok_decide. vm_compute. reflexivity. Qed.

(** The sample key-value spaces are what [UpdateSequencedLeaves] makes of a
    queue holding the two leaves. *)
Lemma txAC_by_update :
  UpdateSequencedLeaves (tx17 [leafA; leafC]) [leafA; leafC] = (Ret tt, txAC).
Proof. vm_compute. reflexivity. Qed.

Lemma txAB_by_update :
  UpdateSequencedLeaves (tx17 [leafA; leafB]) [leafA; leafB] = (Ret tt, txAB).
Proof. vm_compute. reflexivity. Qed.



Lemma GetLeavesByHash_seq_omap (st : gmap Key Value) (id : Z) (seq : list Z) :
  store_ok st →
  ∀ ret, GetLeavesByHash_seq st id seq ret = Ret (ret ++ omap (leaf_at st id) seq).
Proof.
  intros Hok. induction seq as [|s seq IH]; intros ret.
  - simpl. by rewrite app_nil_r.
  - cbn [GetLeavesByHash_seq]. rewrite omap_cons_match. unfold leaf_at at 1.
    destruct (st !! seqLeafKey id s) as [v|] eqn:Hv.
    + destruct (store_ok_leaf _ _ _ _ Hok Hv) as [l ->].
      rewrite IH. by rewrite <- app_assoc.
    + by rewrite IH.
Qed.

Lemma GetLeavesByHash_loop_bind (st : gmap Key Value) (id : Z)
    (mp : gmap string (list Z)) (hs : list string) :
  store_ok st →
  ∀ ret, GetLeavesByHash_loop st id mp hs ret
         = Ret (ret ++ (hs ≫= bucket_leaves st id mp)).
Proof.
  intros Hok. induction hs as [|h hs IH]; intros ret.
  - simpl. by rewrite app_nil_r.
  - cbn [GetLeavesByHash_loop]. rewrite bind_cons. unfold bucket_leaves at 1.
    destruct (mp !! h) as [seq|]; simpl.
    + rewrite GetLeavesByHash_seq_omap by done. rewrite IH. by rewrite <- app_assoc.
    + by rewrite IH.
Qed.

(** C6.  [GetLeavesByHash] returns the leaves the index gives for the
    requested hashes, hash after hash in the order of the request and, for one
    hash, in the order of its bucket; the flag [orderBySequence] plays no part.
    When the index is consistent with the sequenced leaves, these are all the
    sequenced leaves whose Merkle hash is among the requested ones, and only
    those. *)
Theorem GetLeavesByHash_in_request_order
    (t : logTreeTX) (mp : gmap string (list Z)) (hs : list string) (o : bool) :
  store_ok (tx t) →
  tx t !! hashToSeqKey (treeID t) = Some (VMap mp) →
  GetLeavesByHash t hs o = Ret (hs ≫= bucket_leaves (tx t) (treeID t) mp) ∧
  (h2s_consistent (tx t) (treeID t) mp →
   ∀ l, l ∈ (hs ≫= bucket_leaves (tx t) (treeID t) mp) ↔
        MerkleLeafHash l ∈ hs ∧ ∃ i, leaf_at (tx t) (treeID t) i = Some l).
Proof.
  intros Hok Hmp. split.
  - unfold GetLeavesByHash. rewrite Hmp.
    by rewrite GetLeavesByHash_loop_bind.
  - intros Hcons l. rewrite list_elem_of_bind. unfold bucket_leaves. split.
    + intros (h & Hl & Hh). apply list_elem_of_omap in Hl as (i & Hi & Hleaf).
      destruct (mp !! h) as [seq|] eqn:Hseq; simpl in Hi; [|by apply elem_of_nil in Hi].
      destruct (proj1 (Hcons h i)) as (l' & Hl' & Hhash); [by exists seq|].
      assert (l' = l) as -> by congruence.
      split; [by rewrite Hhash | by exists i].
    + intros (Hh & i & Hleaf).
      destruct (proj2 (Hcons (MerkleLeafHash l) i)) as (seq & Hseq & Hi); [by exists l|].
      exists (MerkleLeafHash l). split; [|done].
      apply list_elem_of_omap. exists i. by rewrite Hseq.
Qed.

Lemma storeAB_consistent :
  h2s_consistent (tx txAB) 17 (<[h32 "B" := [1]]> {[ h32 "A" := [0] ]}).
Proof.
  intros h i. split.
  - intros (seq & Hseq & Hi).
    apply lookup_insert_Some in Hseq as [[<- <-]|[_ Hseq]].
    + apply list_elem_of_singleton in Hi as ->. by exists leafB.
    + apply lookup_singleton_Some in Hseq as [<- <-].
      apply list_elem_of_singleton in Hi as ->. by exists leafA.
  - intros (l & Hl & <-). unfold leaf_at in Hl. simpl in Hl. unfold storeAB in Hl.
    rewrite lookup_insert in Hl. destruct (decide _) as [[= <-]|_].
    { injection Hl as <-. exists [0]. split; [done | apply list_elem_of_singleton; done]. }
    rewrite lookup_insert in Hl. destruct (decide _) as [[= <-]|_].
    { injection Hl as <-. exists [1]. split; [done | apply list_elem_of_singleton; done]. }
    unfold store17 in Hl.
    rewrite !lookup_insert_ne in Hl by done. by rewrite lookup_empty in Hl.
Qed.

Lemma GetLeavesByHash_in_request_order_witness :
  GetLeavesByHash txAB [h32 "B"; h32 "A"] true
  = Ret ([h32 "B"; h32 "A"]
         ≫= bucket_leaves (tx txAB) 17 (<[h32 "B" := [1]]> {[ h32 "A" := [0] ]})) ∧
  (∀ l, l ∈ ([h32 "B"; h32 "A"]
             ≫= bucket_leaves (tx txAB) 17 (<[h32 "B" := [1]]> {[ h32 "A" := [0] ]})) ↔
        MerkleLeafHash l ∈ [h32 "B"; h32 "A"] ∧ ∃ i, leaf_at (tx txAB) 17 i = Some l).
Proof.
  destruct (GetLeavesByHash_in_request_order txAB
              (<[h32 "B" := [1]]> {[ h32 "A" := [0] ]}) [h32 "B"; h32 "A"] true)
    as [Hret Hall].
  - exact storeAB_ok.
  - vm_compute. reflexivity.
  - split; [exact Hret | exact (Hall storeAB_consistent)].
Defined.

(** C6, as stated, fails: with [leafA] at index 0 and [leafB] at index 1,
    asking for the hash of [leafB] and then the hash of [leafA] with
    [orderBySequence] set returns [leafB] before [leafA], indices 1 and then
    0. *)
Lemma GetLeavesByHash_not_sorted :
  GetLeavesByHash txAB [h32 "B"; h32 "A"] true = Ret [leafB; leafA] ∧
  LeafIndex <$> [leafB; leafA] = [1; 0].
Proof. split; vm_compute; reflexivity. Qed.

(** ** Moving leaves out of the queue *)

Section counts.
Implicit Types (c : gmap string Z) (h mh : string).

Lemma count_of_nonneg c h : positive_counts c → 0 ≤ count_of c h.
Proof.
  intros Hpos. unfold count_of.
  destruct (c !! h) as [v|] eqn:Hv; simpl; [|done].
  specialize (Hpos _ _ Hv). lia.
Qed.

Lemma count_of_insert c mh v h :
  count_of (<[mh := v]> c) h = if decide (h = mh) then v else count_of c h.
Proof.
  unfold count_of. rewrite lookup_insert.
  destruct (decide (mh = h)) as [->|]; destruct (decide _); simpl; congruence.
Qed.

Lemma count_of_decrement c mh h :
  count_of (decrement c mh) h
  = if decide (h = mh) then count_of c mh - 1 else count_of c h.
Proof.
  unfold decrement. rewrite count_of_insert, decide_True by done.
  destruct (count_of c mh - 1 =? 0) eqn:Hz.
  - apply Z.eqb_eq in Hz. unfold count_of at 1. rewrite lookup_delete.
    destruct (decide (mh = h)) as [->|]; destruct (decide _); simpl; try congruence.
    fold (count_of (<[mh:=count_of c mh - 1]> c) h).
    rewrite count_of_insert. by rewrite decide_False.
  - by rewrite count_of_insert.
Qed.

Lemma positive_counts_decrement c mh :
  positive_counts c → 0 < count_of c mh → positive_counts (decrement c mh).
Proof.
  intros Hpos Hmh h v Hv.
  assert (count_of (decrement c mh) h = v) as Hc by (unfold count_of; by rewrite Hv).
  rewrite count_of_decrement in Hc.
  unfold decrement in Hv. rewrite count_of_insert, decide_True in Hv by done.
  destruct (decide (h = mh)) as [->|Hne].
  - destruct (count_of c mh - 1 =? 0) eqn:Hz.
    + by rewrite lookup_delete_eq in Hv.
    + apply Z.eqb_neq in Hz.
      rewrite lookup_insert_eq in Hv. injection Hv as <-. lia.
  - destruct (count_of c mh - 1 =? 0).
    + rewrite lookup_delete_ne, lookup_insert_ne in Hv by done. eauto.
    + rewrite lookup_insert_ne in Hv by done. eauto.
Qed.

Lemma positive_counts_empty_iff c :
  positive_counts c → (c = ∅ ↔ ∀ h, count_of c h ≤ 0).
Proof.
  intros Hpos. split.
  - intros -> h. unfold count_of. by rewrite lookup_empty.
  - intros Hle. apply map_empty. intros h.
    destruct (c !! h) as [v|] eqn:Hv; [|done].
    specialize (Hpos _ _ Hv). specialize (Hle h).
    unfold count_of in Hle. rewrite Hv in Hle. simpl in Hle. lia.
Qed.

End counts.

Lemma occ_cons (h x : string) (hs : list string) :
  occ h (x :: hs) = if decide (x = h) then S (occ h hs) else occ h hs.
Proof.
  unfold occ. destruct (decide (x = h)) as [->|Hne].
  - by rewrite count_occ_cons_eq.
  - by rewrite count_occ_cons_neq.
Qed.

Lemma occ_app (h : string) (hs1 hs2 : list string) :
  occ h (hs1 ++ hs2) = (occ h hs1 + occ h hs2)%nat.
Proof. apply count_occ_app. Qed.

Lemma occ_Permutation (h : string) (hs1 hs2 : list string) :
  hs1 ≡ₚ hs2 → occ h hs1 = occ h hs2.
Proof. intros Hp. by apply (Permutation_count_occ String.string_dec). Qed.

Section scan.
Context {A : Type} (hash : A → string).

(** The split loses no element, keeps the order, takes at most as many
    elements of a hash as the count asks for, and stops taking a hash only
    when its count is used up or the queue has no more of it. *)
Lemma scan_split_spec (e : list A) : ∀ c,
  positive_counts c →
  ∀ rm kp c', scan_split hash e c = (rm, kp, c') →
    e ≡ₚ rm ++ kp ∧ kp `sublist_of` e ∧ positive_counts c' ∧
    (∀ h, count_of c h = count_of c' h + Z.of_nat (occ h (hash <$> rm))) ∧
    (∀ h, 0 < count_of c' h → occ h (hash <$> kp) = 0%nat).
Proof.
  induction e as [|x e IH]; intros c Hpos rm kp c' Hsplit; simpl in Hsplit.
  - injection Hsplit as <- <- <-. repeat split; try done.
    intros h. simpl. lia.
  - destruct (bool_decide (0 < size c)%nat) eqn:Hsize.
    + destruct (0 <? count_of c (hash x)) eqn:Hcount.
      * apply Z.ltb_lt in Hcount.
        destruct (scan_split hash e (decrement c (hash x))) as [[rm1 kp1] c1] eqn:Hrec.
        injection Hsplit as <- <- <-.
        destruct (IH _ (positive_counts_decrement _ _ Hpos Hcount) _ _ _ Hrec)
          as (Hperm & Hsub & Hpos1 & Hcnt & Hleft).
        repeat split; try done.
        -- simpl. by constructor.
        -- by apply sublist_cons.
        -- intros h. specialize (Hcnt h). rewrite count_of_decrement in Hcnt.
           rewrite fmap_cons, occ_cons.
           destruct (decide (h = hash x)) as [->|Hne].
           ++ rewrite decide_True by done. lia.
           ++ rewrite decide_False by congruence. lia.
      * apply Z.ltb_ge in Hcount.
        destruct (scan_split hash e c) as [[rm1 kp1] c1] eqn:Hrec.
        injection Hsplit as <- <- <-.
        destruct (IH _ Hpos _ _ _ Hrec) as (Hperm & Hsub & Hpos1 & Hcnt & Hleft).
        repeat split; try done.
        -- rewrite Hperm. apply Permutation_middle.
        -- by apply sublist_skip.
        -- intros h Hh. rewrite fmap_cons, occ_cons.
           rewrite decide_False; [by apply Hleft|].
           intros Heq. specialize (Hcnt h). rewrite <- Heq in Hh, Hcnt. lia.
    + apply bool_decide_eq_false in Hsize.
      assert (c = ∅) as -> by (apply map_size_empty_inv; lia).
      injection Hsplit as <- <- <-. repeat split; done.
Qed.

Lemma scan_split_removed_in (e : list A) : ∀ c rm kp c',
  scan_split hash e c = (rm, kp, c') → rm ⊆ e.
Proof.
  induction e as [|x e IH]; intros c rm kp c' Hsplit; simpl in Hsplit.
  - by injection Hsplit as <- <- <-.
  - destruct (bool_decide (0 < size c)%nat).
    + destruct (0 <? count_of c (hash x)).
      * destruct (scan_split hash e (decrement c (hash x))) as [[rm1 kp1] c1] eqn:Hrec.
        injection Hsplit as <- <- <-. apply IH in Hrec.
        intros y Hy. apply elem_of_cons in Hy as [->|Hy]; [left | right; by apply Hrec].
      * destruct (scan_split hash e c) as [[rm1 kp1] c1] eqn:Hrec.
        injection Hsplit as <- <- <-. apply IH in Hrec.
        intros y Hy. right. by apply Hrec.
    + injection Hsplit as <- <- <-. intros y Hy. by apply elem_of_nil in Hy.
Qed.

End scan.

(** The scan of the source marks the elements that [scan_split] removes. *)
Lemma UpdateSequencedLeaves_scan_split (e : list (nat * LogLeaf)) : ∀ c acc rm kp c',
  scan_split (MerkleLeafHash ∘ snd) e c = (rm, kp, c') →
  UpdateSequencedLeaves_scan e c acc = (acc ++ rm.*1, c').
Proof.
  induction e as [|x e IH]; intros c acc rm kp c' Hsplit; simpl in *.
  - injection Hsplit as <- <- <-. by rewrite app_nil_r.
  - destruct (bool_decide (0 < size c)%nat).
    + destruct (0 <? count_of c (MerkleLeafHash x.2)).
      * destruct (scan_split _ e (decrement c _)) as [[rm1 kp1] c1] eqn:Hrec.
        injection Hsplit as <- <- <-.
        rewrite (IH _ _ _ _ _ Hrec). by rewrite <- app_assoc.
      * destruct (scan_split _ e c) as [[rm1 kp1] c1] eqn:Hrec.
        injection Hsplit as <- <- <-. by rewrite (IH _ _ _ _ _ Hrec).
    + injection Hsplit as <- <- <-. by rewrite app_nil_r.
Qed.

Lemma filter_ext_in {A : Type} (P1 P2 : A → Prop)
    `{!∀ x, Decision (P1 x), !∀ x, Decision (P2 x)} (l : list A) :
  (∀ x, x ∈ l → P1 x ↔ P2 x) → filter P1 l = filter P2 l.
Proof.
  induction l as [|a l IH]; intros Hiff; [done|].
  rewrite !filter_cons.
  rewrite IH by (intros x Hx; apply Hiff; by right).
  apply decide_ext, Hiff. by left.
Qed.

Lemma filter_all {A : Type} (P : A → Prop) `{!∀ x, Decision (P x)} (l : list A) :
  (∀ x, P x) → filter P l = l.
Proof.
  intros HP. induction l as [|a l IH]; [done|].
  by rewrite filter_cons_True, IH.
Qed.

Lemma Remove_all_filter (toRemove : list nat) : ∀ q,
  Remove_all q toRemove = filter (λ y, y.1 ∉ toRemove) q.
Proof.
  unfold Remove_all.
  induction toRemove as [|p ps IH]; intros q; simpl.
  - symmetry. apply filter_all. intros y. apply not_elem_of_nil.
  - rewrite IH. unfold Remove. rewrite list_filter_filter.
    apply list_filter_iff. intros y. rewrite not_elem_of_cons. tauto.
Qed.

(** Removing the marked elements leaves the elements that [scan_split]
    keeps, when no two elements of the list are the same element. *)
Lemma scan_split_kept (e : list (nat * LogLeaf)) : ∀ c rm kp c',
  NoDup e.*1 →
  scan_split (MerkleLeafHash ∘ snd) e c = (rm, kp, c') →
  filter (λ y, y.1 ∉ rm.*1) e = kp.
Proof.
  induction e as [|x e IH]; intros c rm kp c' Hnd Hsplit; simpl in Hsplit.
  - by injection Hsplit as <- <- <-.
  - rewrite fmap_cons in Hnd. apply NoDup_cons in Hnd as [Hx Hnd].
    destruct (bool_decide (0 < size c)%nat).
    + destruct (0 <? count_of c _).
      * destruct (scan_split _ e (decrement c _)) as [[rm1 kp1] c1] eqn:Hrec.
        injection Hsplit as <- <- <-.
        rewrite filter_cons_False by (intros Hn; apply Hn; rewrite fmap_cons; by left).
        rewrite <- (IH _ _ _ _ Hnd Hrec). apply filter_ext_in.
        intros y Hy. rewrite fmap_cons, not_elem_of_cons.
        split; [tauto|]. intros Hn. split; [|done].
        intros Heq. apply Hx. rewrite <- Heq. by apply list_elem_of_fmap_2.
      * destruct (scan_split _ e c) as [[rm1 kp1] c1] eqn:Hrec.
        injection Hsplit as <- <- <-.
        rewrite filter_cons_True.
        -- by rewrite (IH _ _ _ _ Hnd Hrec).
        -- intros Hin. apply Hx.
           apply list_elem_of_fmap in Hin as (y & -> & Hy).
           apply list_elem_of_fmap_2. by apply (scan_split_removed_in _ _ _ _ _ _ Hrec).
    + injection Hsplit as <- <- <-. simpl.
      apply filter_all. intros y. apply not_elem_of_nil.
Qed.

Lemma Elements_fst (q : list LogLeaf) : (Elements q).*1 = seq 0 (length q).
Proof.
  unfold Elements. rewrite fmap_imap.
  rewrite (imap_ext _ (λ i _, i)) by done.
  by rewrite imap_seq_0, list_fmap_id.
Qed.

Lemma Elements_snd (q : list LogLeaf) : (Elements q).*2 = q.
Proof.
  unfold Elements. rewrite fmap_imap.
  rewrite (imap_ext _ (λ _ x, x)) by done.
  change (imap (λ _ x, x) q) with (imap (const id) q).
  by rewrite imap_const, list_fmap_id.
Qed.

Lemma sublist_fmap_snd (kp e : list (nat * LogLeaf)) :
  kp `sublist_of` e → kp.*2 `sublist_of` e.*2.
Proof.
  induction 1; simpl; [constructor | by apply sublist_skip | by apply sublist_cons].
Qed.

(** The first loop on leaves of the right identity-hash size: it returns the
    count of leaves per Merkle hash and leaves the queue item alone. *)
Lemma UpdateSequencedLeaves_insert_counts (id hashSize : Z) (leaves : list LogLeaf) :
  Forall (λ l, len (LeafIdentityHash l) = hashSize) leaves →
  ∀ st c mp,
    st !! hashToSeqKey id = Some (VMap mp) →
    positive_counts c →
    ∃ st' c',
      UpdateSequencedLeaves_insert id hashSize leaves st c = (Ret c', st') ∧
      st' !! unseqKey id = st !! unseqKey id ∧
      positive_counts c' ∧
      ∀ h, count_of c' h = count_of c h + Z.of_nat (occ h (MerkleLeafHash <$> leaves)).
Proof.
  induction 1 as [|leaf leaves Hgood _ IH]; intros st c mp Hmp Hpos.
  - exists st, c. repeat split; try done. intros h. simpl. lia.
  - cbn [UpdateSequencedLeaves_insert].
    rewrite bool_decide_eq_false_2 by (by intros []).
    rewrite lookup_insert_ne by done. rewrite Hmp.
    edestruct (IH (<[hashToSeqKey id :=
                       VMap (<[MerkleLeafHash leaf :=
                                 default [] (mp !! MerkleLeafHash leaf) ++ [LeafIndex leaf]]> mp)]>
                     (<[seqLeafKey id (LeafIndex leaf) := VLeaf leaf]> st))
                  (<[MerkleLeafHash leaf := count_of c (MerkleLeafHash leaf) + 1]> c))
      as (st' & c' & Hrun & Hq & Hpos' & Hcnt).
    + apply lookup_insert_eq.
    + intros h v Hv. apply lookup_insert_Some in Hv as [[_ <-]|[_ Hv]]; [|eauto].
      pose proof (count_of_nonneg c (MerkleLeafHash leaf) Hpos). lia.
    + exists st', c'. split; [exact Hrun|]. split; [|split; [done|]].
      * rewrite Hq. by rewrite !lookup_insert_ne.
      * intros h. rewrite Hcnt, count_of_insert, fmap_cons, occ_cons.
        destruct (decide (h = MerkleLeafHash leaf)) as [->|Hne].
        -- rewrite decide_True by done. lia.
        -- rewrite decide_False by congruence. lia.
Qed.

(** C3.  For leaves whose identity hashes have the hasher's size, on a
    store that holds the queue and the hash index:
    - if for some Merkle hash the queue holds fewer entries than the argument
      has leaves (some leaf has no queue entry of its own to match), the call
      returns the unknown-leaves error;
    - otherwise every leaf has its own matching entry, the call succeeds, and
      the queue afterwards is the queue before, in its order, without one
      entry per leaf: the Merkle hashes of the removed entries are those of the
      leaves, each as many times. *)
Theorem UpdateSequencedLeaves_consumes_queue
    (t : logTreeTX) (q : list LogLeaf) (mp : gmap string (list Z))
    (leaves : list LogLeaf) :
  tx t !! unseqKey (treeID t) = Some (VList q) →
  tx t !! hashToSeqKey (treeID t) = Some (VMap mp) →
  Forall (λ l, len (LeafIdentityHash l) = hashSizeBytes t) leaves →
  ((∃ h, (occ h (MerkleLeafHash <$> q) < occ h (MerkleLeafHash <$> leaves))%nat) →
   ∃ unknown c, (UpdateSequencedLeaves t leaves).1 = Fail (ErrUnknownLeaves unknown c) ∧
                0 < unknown) ∧
  ((∀ h, (occ h (MerkleLeafHash <$> leaves) ≤ occ h (MerkleLeafHash <$> q))%nat) →
   (UpdateSequencedLeaves t leaves).1 = Ret tt ∧
   ∃ removed q',
     tx (UpdateSequencedLeaves t leaves).2 !! unseqKey (treeID t) = Some (VList q') ∧
     q' `sublist_of` q ∧
     q ≡ₚ removed ++ q' ∧
     MerkleLeafHash <$> removed ≡ₚ MerkleLeafHash <$> leaves).
Proof.
  intros Hq Hmp Hgood.
  destruct (UpdateSequencedLeaves_insert_counts (treeID t) (hashSizeBytes t) leaves
              Hgood (tx t) ∅ mp Hmp) as (st & c & Hins & Hst & Hpos & Hcnt).
  { intros h v Hv. by rewrite lookup_empty in Hv. }
  assert (Hc : ∀ h, count_of c h = Z.of_nat (occ h (MerkleLeafHash <$> leaves))).
  { intros h. rewrite Hcnt. unfold count_of. by rewrite lookup_empty. }
  destruct (scan_split (MerkleLeafHash ∘ snd) (Elements q) c) as [[rm kp] c'] eqn:Hsplit.
  destruct (scan_split_spec _ _ _ Hpos _ _ _ Hsplit)
    as (Hperm & Hsub & Hpos' & Hrm & Hleft).
  assert (Hkept : (Remove_all (Elements q) rm.*1).*2 = kp.*2).
  { rewrite Remove_all_filter. f_equal.
    apply (scan_split_kept _ c rm kp c'); [|done].
    rewrite Elements_fst. apply NoDup_seq. }
  assert (Hqperm : q ≡ₚ rm.*2 ++ kp.*2).
  { rewrite <- fmap_app, <- Hperm. by rewrite Elements_snd. }
  assert (Hocc : ∀ h, occ h (MerkleLeafHash <$> q)
                      = (occ h (MerkleLeafHash <$> rm.*2)
                         + occ h (MerkleLeafHash <$> kp.*2))%nat).
  { intros h. rewrite <- occ_app, <- fmap_app. apply occ_Permutation.
    by rewrite Hqperm. }
  assert (Hrm' : ∀ h, count_of c h
                      = count_of c' h + Z.of_nat (occ h (MerkleLeafHash <$> rm.*2))).
  { intros h. rewrite Hrm. by rewrite list_fmap_compose. }
  assert (Hrun : UpdateSequencedLeaves t leaves
                 = let t' := set_tx (λ _, <[unseqKey (treeID t) := VList kp.*2]> st) t in
                   if bool_decide (size c' ≠ 0%nat)
                   then (Fail (ErrUnknownLeaves (Z.of_nat (size c')) c'), t')
                   else (Ret tt, t')).
  { unfold UpdateSequencedLeaves. rewrite Hins, Hst, Hq.
    rewrite (UpdateSequencedLeaves_scan_split _ _ [] _ _ _ Hsplit). simpl.
    by rewrite Hkept. }
  rewrite Hrun. clear Hrun. split.
  - intros (h & Hshort).
    assert (c' ≠ ∅) as Hne.
    { intros Hempty.
      pose proof (proj1 (positive_counts_empty_iff _ Hpos') Hempty h) as Hzero.
      specialize (Hrm' h). specialize (Hocc h).
      specialize (Hc h). lia. }
    apply map_size_non_empty_iff in Hne.
    simpl. rewrite bool_decide_eq_true_2 by done. simpl.
    eexists _, _. split; [reflexivity | lia].
  - intros Henough.
    assert (c' = ∅) as ->.
    { apply (proj2 (positive_counts_empty_iff _ Hpos')). intros h.
      destruct (decide (0 < count_of c' h)) as [Hh|]; [|lia].
      specialize (Hleft h Hh). rewrite list_fmap_compose in Hleft.
      specialize (Henough h). specialize (Hrm' h). specialize (Hocc h).
      specialize (Hc h). lia. }
    simpl. rewrite map_size_empty. simpl. split; [done|].
    exists rm.*2, kp.*2. split; [apply lookup_insert_eq|].
    split; [|split; [done|]].
    + rewrite <- (Elements_snd q). by apply sublist_fmap_snd.
    + apply (Permutation_count_occ String.string_dec). intros h.
      specialize (Hrm' h). specialize (Hc h).
      unfold count_of in Hrm' at 2. rewrite lookup_empty in Hrm'. simpl in Hrm'.
      fold (occ h (MerkleLeafHash <$> rm.*2)). fold (occ h (MerkleLeafHash <$> leaves)).
      lia.
Qed.

Lemma UpdateSequencedLeaves_consumes_queue_witness :
  (∃ unknown c,
     (UpdateSequencedLeaves (tx17 [leafA]) [leafC]).1 = Fail (ErrUnknownLeaves unknown c) ∧
     0 < unknown) ∧
  ((UpdateSequencedLeaves (tx17 [leafA; leafB; leafC]) [leafB]).1 = Ret tt ∧
   ∃ removed q',
     tx (UpdateSequencedLeaves (tx17 [leafA; leafB; leafC]) [leafB]).2 !! unseqKey 17
       = Some (VList q') ∧
     q' `sublist_of` [leafA; leafB; leafC] ∧
     [leafA; leafB; leafC] ≡ₚ removed ++ q' ∧
     MerkleLeafHash <$> removed ≡ₚ MerkleLeafHash <$> [leafB]).
Proof.
  split.
  - apply (UpdateSequencedLeaves_consumes_queue (tx17 [leafA]) [leafA] ∅ [leafC]).
    + vm_compute. reflexivity.
    + vm_compute. reflexivity.
    + repeat constructor.
    + exists (h32 "C"). vm_compute. lia.
  - apply (UpdateSequencedLeaves_consumes_queue
             (tx17 [leafA; leafB; leafC]) [leafA; leafB; leafC] ∅ [leafB]).
    + vm_compute. reflexivity.
    + vm_compute. reflexivity.
    + repeat constructor.
    + intros h. rewrite !fmap_cons, !occ_cons. simpl.
      repeat destruct (decide _); try lia; congruence.
Defined.

(** C3, as stated, fails: the queue holds [leafA], and [leafShort] has the
    Merkle hash of [leafA], so the one leaf of the argument has a matching
    queue entry; the call does not succeed but returns the hash-size error, and
    the entry stays in the queue. *)
Lemma UpdateSequencedLeaves_hash_size_error :
  tx (tx17 [leafA]) !! unseqKey 17 = Some (VList [leafA]) ∧
  MerkleLeafHash leafShort = MerkleLeafHash leafA ∧
  (UpdateSequencedLeaves (tx17 [leafA]) [leafShort]).1
  = Fail (ErrSequencedHashSize 5 32) ∧
  tx (UpdateSequencedLeaves (tx17 [leafA]) [leafShort]).2 !! unseqKey 17
  = Some (VList [leafA]).
Proof.
  split; [vm_compute; reflexivity|].
  split; [vm_compute; reflexivity|].
  split; vm_compute; reflexivity.
Qed.

(** ** Well-typed stores stay well typed *)

Lemma UpdateSequencedLeaves_insert_store_ok (id hashSize : Z) (leaves : list LogLeaf) :
  ∀ st c, store_ok st →
          store_ok (UpdateSequencedLeaves_insert id hashSize leaves st c).2.
Proof.
  induction leaves as [|leaf leaves IH]; intros st c Hok; simpl; [done|].
  destruct (bool_decide _); [done|].
  assert (store_ok (<[seqLeafKey id (LeafIndex leaf) := VLeaf leaf]> st)) as Hok1
    by (by apply map_Forall_insert_2).
  rewrite lookup_insert_ne by done.
  destruct (st !! hashToSeqKey id) as [[]|]; try done.
  apply IH. by apply map_Forall_insert_2.
Qed.

(** No call on a transaction puts a value of the wrong kind under a key. *)
Lemma exec_store_ok (op : Op) (m : gmap Z memTree) (t : logTreeTX) :
  store_ok (tx t) → store_ok (tx (exec op m t).2).
Proof.
  intros Hok. destruct op; simpl; try done.
  - unfold QueueLeaves. destruct (QueueLeaves_check _ _); [done|].
    destruct (tx t !! _) as [[]|]; try done.
    simpl. by apply map_Forall_insert_2.
  - unfold StoreSignedLogRoot. destruct (UnmarshalBinary _); try done.
    assert (store_ok (<[revKey (treeID t) (TimestampNanos a) := VInt (writeRevision t)]>
                        (<[sthKey (treeID t) (TimestampNanos a) := VSLR s]> (tx t))))
      by (by repeat apply map_Forall_insert_2).
    destruct (m !! tree t); [|done]. by destruct (_ <? _).
  - unfold UpdateSequencedLeaves.
    pose proof (UpdateSequencedLeaves_insert_store_ok (treeID t) (hashSizeBytes t)
                  leaves (tx t) ∅ Hok) as Hins.
    destruct (UpdateSequencedLeaves_insert _ _ _ _ _) as [[c|e|] st]; try done.
    simpl in Hins.
    destruct (st !! _) as [[q| | | |]|]; try done.
    destruct (UpdateSequencedLeaves_scan _ _ _) as [toRemove c'].
    destruct (bool_decide _); simpl; by apply map_Forall_insert_2.
Qed.

(** * Further properties of the storage *)

(** ** The queue, end to end *)





(** X3.  Two calls of [QueueLeaves] leave the transaction as one call with
    the two batches joined does, and the leaves are stored as submitted: the
    queue timestamp passed to the call is not written into them. *)
Theorem QueueLeaves_batches_join
    (t : logTreeTX) (q leaves1 leaves2 : list LogLeaf) (qts1 qts2 qts : Z) :
  tx t !! unseqKey (treeID t) = Some (VList q) →
  Forall (λ l, len (LeafIdentityHash l) = hashSizeBytes t) leaves1 →
  Forall (λ l, len (LeafIdentityHash l) = hashSizeBytes t) leaves2 →
  (QueueLeaves (QueueLeaves t leaves1 qts1).2 leaves2 qts2).2
  = (QueueLeaves t (leaves1 ++ leaves2) qts).2 ∧
  tx (QueueLeaves t (leaves1 ++ leaves2) qts).2 !! unseqKey (treeID t)
  = Some (VList (q ++ leaves1 ++ leaves2)).
Proof.
  intros Hq Hgood1 Hgood2.
  rewrite (QueueLeaves_appends t q leaves1 qts1 Hq Hgood1). simpl.
  rewrite (QueueLeaves_appends _ (q ++ leaves1) leaves2 qts2);
    [|simpl; apply lookup_insert_eq|done].
  rewrite (QueueLeaves_appends t q (leaves1 ++ leaves2) qts Hq);
    [|by apply Forall_app]. simpl.
  split; [|apply lookup_insert_eq].
  unfold set_tx. simpl. f_equal.
  by rewrite insert_insert_eq, app_assoc.
Qed.

Lemma QueueLeaves_batches_join_witness :
  (QueueLeaves (QueueLeaves (tx17 [leafA]) [leafB] 1).2 [leafC] 2).2
  = (QueueLeaves (tx17 [leafA]) ([leafB] ++ [leafC]) 3).2 ∧
  tx (QueueLeaves (tx17 [leafA]) ([leafB] ++ [leafC]) 3).2 !! unseqKey 17
  = Some (VList ([leafA] ++ [leafB] ++ [leafC])).
Proof.
  apply (QueueLeaves_batches_join (tx17 [leafA]) [leafA] [leafB] [leafC] 1 2 3).
  - vm_compute. reflexivity.
  - repeat constructor.
  - repeat constructor.
Defined.

(** ** The latest signed root *)

(** X4.  After [StoreSignedLogRoot] has stored a root whose timestamp is not
    older than the tree's [currentSTH], [fetchLatestRoot] on the same
    transaction returns that root with the write revision of the transaction,
    and [currentSTH] is the timestamp of the root. *)
Theorem StoreSignedLogRoot_then_fetchLatestRoot
    (m : gmap Z memTree) (t : logTreeTX) (s : SignedLogRoot) (r : LogRootV1)
    (tr : memTree) :
  m !! tree t = Some tr →
  LogRoot s = Some r →
  currentSTH tr ≤ TimestampNanos r →
  fetchLatestRoot (StoreSignedLogRoot m t s).1.2 (StoreSignedLogRoot m t s).2
  = Ret (s, writeRevision t) ∧
  currentSTH <$> (StoreSignedLogRoot m t s).1.2 !! tree t = Some (TimestampNanos r).
Proof.
  intros Htr Hs Hle. unfold StoreSignedLogRoot. rewrite Hs. simpl. rewrite Htr.
  destruct (currentSTH tr <? TimestampNanos r) eqn:Hlt; simpl.
  - unfold fetchLatestRoot. simpl. rewrite lookup_insert_eq. simpl.
    rewrite lookup_insert_ne by done. by rewrite !lookup_insert_eq.
  - apply Z.ltb_ge in Hlt. assert (currentSTH tr = TimestampNanos r) as Heq by lia.
    unfold fetchLatestRoot. simpl. rewrite Htr, Heq. simpl.
    rewrite lookup_insert_ne by done. rewrite !lookup_insert_eq.
    split; [done | by rewrite Heq].
Qed.

Lemma StoreSignedLogRoot_then_fetchLatestRoot_witness :
  fetchLatestRoot (StoreSignedLogRoot (trees17 []) (tx17 []) (mkRoot 1 2000 "s2")).1.2
                  (StoreSignedLogRoot (trees17 []) (tx17 []) (mkRoot 1 2000 "s2")).2
  = Ret (mkRoot 1 2000 "s2", writeRevision (tx17 [])) ∧
  currentSTH <$> (StoreSignedLogRoot (trees17 []) (tx17 []) (mkRoot 1 2000 "s2")).1.2
    !! tree (tx17 [])
  = Some (TimestampNanos {| TreeSize := 1; RootHash := ""; TimestampNanos := 2000;
                            Revision := 0 |}).
Proof.
  apply (StoreSignedLogRoot_then_fetchLatestRoot (trees17 []) (tx17 [])
           (mkRoot 1 2000 "s2")
           {| TreeSize := 1; RootHash := ""; TimestampNanos := 2000; Revision := 0 |}
           {| store := store17 []; currentSTH := 1000; meta := meta17 |}).
  - vm_compute. reflexivity.
  - reflexivity.
  - simpl. lia.
Defined.

(** X5.  [StoreSignedLogRoot] never moves [currentSTH] back: after the call
    it is the larger of its old value and the timestamp of the stored root.  A
    root with an older timestamp is stored, yet [fetchLatestRoot] goes on
    returning what it returned before. *)
Theorem StoreSignedLogRoot_currentSTH_max
    (m : gmap Z memTree) (t : logTreeTX) (s : SignedLogRoot) (r : LogRootV1)
    (tr : memTree) :
  m !! tree t = Some tr →
  LogRoot s = Some r →
  currentSTH <$> (StoreSignedLogRoot m t s).1.2 !! tree t
  = Some (Z.max (currentSTH tr) (TimestampNanos r)) ∧
  (TimestampNanos r < currentSTH tr →
   tx (StoreSignedLogRoot m t s).2 !! sthKey (treeID t) (TimestampNanos r)
   = Some (VSLR s) ∧
   fetchLatestRoot (StoreSignedLogRoot m t s).1.2 (StoreSignedLogRoot m t s).2
   = fetchLatestRoot m t).
Proof.
  intros Htr Hs. unfold StoreSignedLogRoot. rewrite Hs. simpl. rewrite Htr.
  destruct (currentSTH tr <? TimestampNanos r) eqn:Hlt; simpl.
  - apply Z.ltb_lt in Hlt. rewrite lookup_insert_eq. simpl.
    split; [f_equal; lia | intros; lia].
  - apply Z.ltb_ge in Hlt. rewrite Htr. simpl.
    split; [f_equal; lia|]. intros Hold. split.
    + rewrite lookup_insert_ne by done. apply lookup_insert_eq.
    + unfold fetchLatestRoot. simpl. rewrite Htr.
      assert (TimestampNanos r ≠ currentSTH tr) as Hne by lia.
      rewrite !(lookup_insert_ne (<[sthKey _ _ := _]> _)) by congruence.
      rewrite !lookup_insert_ne by congruence. done.
Qed.

Lemma StoreSignedLogRoot_currentSTH_max_witness :
  currentSTH <$> (StoreSignedLogRoot (trees17 []) (tx17 []) (mkRoot 0 500 "old")).1.2
    !! tree (tx17 [])
  = Some (Z.max 1000 500) ∧
  fetchLatestRoot (StoreSignedLogRoot (trees17 []) (tx17 []) (mkRoot 0 500 "old")).1.2
                  (StoreSignedLogRoot (trees17 []) (tx17 []) (mkRoot 0 500 "old")).2
  = fetchLatestRoot (trees17 []) (tx17 []).
Proof.
  destruct (StoreSignedLogRoot_currentSTH_max (trees17 []) (tx17 [])
              (mkRoot 0 500 "old")
              {| TreeSize := 0; RootHash := ""; TimestampNanos := 500; Revision := 0 |}
              {| store := store17 []; currentSTH := 1000; meta := meta17 |})
    as [Hmax Hold].
  - vm_compute. reflexivity.
  - reflexivity.
  - split; [exact Hmax|]. apply Hold. simpl. lia.
Defined.

(** ** Reading by range and by hash *)





(** X7.  [GetLeavesByHash] works hash by hash: the result for a request made
    of two lists of hashes is the result for the first followed by the result
    for the second, so a hash asked twice gives its leaves twice; a hash the
    index does not know gives nothing, and so does an empty request. *)
Theorem GetLeavesByHash_request_splits
    (t : logTreeTX) (mp : gmap string (list Z)) (hs1 hs2 : list string) (o : bool) :
  store_ok (tx t) →
  tx t !! hashToSeqKey (treeID t) = Some (VMap mp) →
  (∃ ls1 ls2, GetLeavesByHash t hs1 o = Ret ls1 ∧
              GetLeavesByHash t hs2 o = Ret ls2 ∧
              GetLeavesByHash t (hs1 ++ hs2) o = Ret (ls1 ++ ls2)) ∧
  (∀ h, mp !! h = None → GetLeavesByHash t [h] o = Ret []) ∧
  GetLeavesByHash t [] o = Ret [].
Proof.
  intros Hok Hmp. unfold GetLeavesByHash. rewrite Hmp.
  rewrite !GetLeavesByHash_loop_bind by done. simpl.
  split; [|split; [|done]].
  - eexists _, _. split; [reflexivity|]. split; [reflexivity|].
    by rewrite bind_app.
  - intros h Hh. cbn [GetLeavesByHash_loop]. by rewrite Hh.
Qed.

Lemma GetLeavesByHash_request_splits_witness :
  ∃ ls1 ls2, GetLeavesByHash txAB [h32 "B"] false = Ret ls1 ∧
             GetLeavesByHash txAB [h32 "A"; h32 "B"] false = Ret ls2 ∧
             GetLeavesByHash txAB ([h32 "B"] ++ [h32 "A"; h32 "B"]) false
             = Ret (ls1 ++ ls2).
Proof.
  apply (GetLeavesByHash_request_splits txAB
           (<[h32 "B" := [1]]> {[ h32 "A" := [0] ]}) [h32 "B"] [h32 "A"; h32 "B"] false).
  - exact storeAB_ok.
  - vm_compute. reflexivity.
Defined.

(** ** What [UpdateSequencedLeaves] writes *)

Lemma leaf_at_insert_other (st : gmap Key Value) (id i : Z) (k : Key) (v : Value) :
  k ≠ seqLeafKey id i → leaf_at (<[k := v]> st) id i = leaf_at st id i.
Proof. intros Hk. unfold leaf_at. by rewrite lookup_insert_ne. Qed.

Lemma leaf_at_insert_leaf (st : gmap Key Value) (id i : Z) (l : LogLeaf) :
  leaf_at (<[seqLeafKey id i := VLeaf l]> st) id i = Some l.
Proof. unfold leaf_at. by rewrite lookup_insert_eq. Qed.

(** The store after the first loop, on leaves of the right identity-hash
    size: the last leaf written at an index is the one found there, and the
    other indices are as before. *)
Lemma UpdateSequencedLeaves_insert_leaf_at (id hashSize : Z) (leaves : list LogLeaf) :
  Forall (λ l, len (LeafIdentityHash l) = hashSize) leaves →
  ∀ st c mp,
    st !! hashToSeqKey id = Some (VMap mp) →
    (∀ i, i ∉ LeafIndex <$> leaves →
          leaf_at (UpdateSequencedLeaves_insert id hashSize leaves st c).2 id i
          = leaf_at st id i) ∧
    (∀ l1 l l2, leaves = l1 ++ l :: l2 → LeafIndex l ∉ LeafIndex <$> l2 →
          leaf_at (UpdateSequencedLeaves_insert id hashSize leaves st c).2 id (LeafIndex l)
          = Some l).
Proof.
  induction 1 as [|leaf leaves Hgood _ IH]; intros st c mp Hmp.
  - split; [done|]. intros l1 l l2 Heq. by destruct l1.
  - cbn [UpdateSequencedLeaves_insert].
    rewrite bool_decide_eq_false_2 by (by intros []).
    rewrite lookup_insert_ne by done. rewrite Hmp.
    set (st2 := <[hashToSeqKey id := _]> (<[seqLeafKey id (LeafIndex leaf) := _]> st)).
    set (c2 := <[MerkleLeafHash leaf := _]> c).
    destruct (IH st2 c2 (<[MerkleLeafHash leaf :=
                default [] (mp !! MerkleLeafHash leaf) ++ [LeafIndex leaf]]> mp))
      as [Hframe Hlast]; [apply lookup_insert_eq|].
    split.
    + intros i Hi. rewrite fmap_cons, not_elem_of_cons in Hi. destruct Hi as [Hne Hi].
      rewrite (Hframe i Hi). unfold st2.
      rewrite leaf_at_insert_other by done.
      apply leaf_at_insert_other. congruence.
    + intros l1 l l2 Heq Hl. destruct l1 as [|x l1]; simpl in Heq.
      * injection Heq as -> ->. rewrite (Hframe _ Hl). unfold st2.
        rewrite leaf_at_insert_other by done. apply leaf_at_insert_leaf.
      * injection Heq as -> ->. by apply (Hlast l1 l l2).
Qed.

(** The shape of the call on leaves of the right identity-hash size: the
    first loop runs through, and the key-value space afterwards is the one it
    made with the queue item replaced. *)
Lemma UpdateSequencedLeaves_tx (t : logTreeTX) (q : list LogLeaf)
    (mp : gmap string (list Z)) (leaves : list LogLeaf) :
  tx t !! unseqKey (treeID t) = Some (VList q) →
  tx t !! hashToSeqKey (treeID t) = Some (VMap mp) →
  Forall (λ l, len (LeafIdentityHash l) = hashSizeBytes t) leaves →
  ∃ q',
    tx (UpdateSequencedLeaves t leaves).2
    = <[unseqKey (treeID t) := VList q']>
        (UpdateSequencedLeaves_insert (treeID t) (hashSizeBytes t) leaves (tx t) ∅).2 ∧
    ((UpdateSequencedLeaves t leaves).1 = Ret tt ∨
     ∃ n c, (UpdateSequencedLeaves t leaves).1 = Fail (ErrUnknownLeaves n c)).
Proof.
  intros Hq Hmp Hgood.
  destruct (UpdateSequencedLeaves_insert_counts (treeID t) (hashSizeBytes t) leaves
              Hgood (tx t) ∅ mp Hmp) as (st & c & Hins & Hst & _ & _).
  { intros h v Hv. by rewrite lookup_empty in Hv. }
  unfold UpdateSequencedLeaves. rewrite Hins. simpl. rewrite Hst, Hq.
  destruct (UpdateSequencedLeaves_scan _ _ _) as [toRemove c'].
  destruct (bool_decide _); simpl; eexists; (split; [reflexivity|]); eauto.
Qed.

(** X8.  After [UpdateSequencedLeaves] on leaves of the right identity-hash
    size, whether it returns nil or the unknown-leaves error, each leaf is
    found at its [LeafIndex] unless a later leaf of the argument has the same
    index (the later one is then found there: a used index is overwritten,
    not refused); indices that no leaf of the argument has hold what they held
    before. *)
Theorem UpdateSequencedLeaves_writes_at_LeafIndex
    (t : logTreeTX) (q : list LogLeaf) (mp : gmap string (list Z))
    (leaves : list LogLeaf) :
  tx t !! unseqKey (treeID t) = Some (VList q) →
  tx t !! hashToSeqKey (treeID t) = Some (VMap mp) →
  Forall (λ l, len (LeafIdentityHash l) = hashSizeBytes t) leaves →
  (∀ l1 l l2, leaves = l1 ++ l :: l2 → LeafIndex l ∉ LeafIndex <$> l2 →
     leaf_at (tx (UpdateSequencedLeaves t leaves).2) (treeID t) (LeafIndex l) = Some l) ∧
  (∀ i, i ∉ LeafIndex <$> leaves →
     leaf_at (tx (UpdateSequencedLeaves t leaves).2) (treeID t) i
     = leaf_at (tx t) (treeID t) i).
Proof.
  intros Hq Hmp Hgood.
  destruct (UpdateSequencedLeaves_tx t q mp leaves Hq Hmp Hgood) as (q' & -> & _).
  destruct (UpdateSequencedLeaves_insert_leaf_at (treeID t) (hashSizeBytes t) leaves
              Hgood (tx t) ∅ mp Hmp) as [Hframe Hlast].
  split.
  - intros l1 l l2 Heq Hl. rewrite leaf_at_insert_other by done. by apply (Hlast l1 l l2).
  - intros i Hi. rewrite leaf_at_insert_other by done. by apply Hframe.
Qed.

Lemma UpdateSequencedLeaves_writes_at_LeafIndex_witness :
  leaf_at (tx (UpdateSequencedLeaves (tx17 [leafA; leafC]) [leafA; leafC]).2) 17 2
  = Some leafC ∧
  leaf_at (tx (UpdateSequencedLeaves (tx17 [leafA; leafC]) [leafA; leafC]).2) 17 1
  = leaf_at (tx (tx17 [leafA; leafC])) 17 1.
Proof.
  destruct (UpdateSequencedLeaves_writes_at_LeafIndex
              (tx17 [leafA; leafC]) [leafA; leafC] ∅ [leafA; leafC]) as [Hlast Hframe].
  - vm_compute. reflexivity.
  - vm_compute. reflexivity.
  - repeat constructor.
  - split.
    + apply (Hlast [leafA] leafC []); [reflexivity|]. apply not_elem_of_nil.
    + apply Hframe. vm_compute. intros Hin.
      apply elem_of_cons in Hin as [Hin|Hin]; [discriminate|].
      apply elem_of_cons in Hin as [Hin|Hin]; [discriminate|].
      by apply elem_of_nil in Hin.
Defined.

Lemma h2s_consistent_ext (st1 st2 : gmap Key Value) (id : Z) (mp : gmap string (list Z)) :
  (∀ i, leaf_at st2 id i = leaf_at st1 id i) →
  h2s_consistent st1 id mp → h2s_consistent st2 id mp.
Proof.
  intros Hext Hcons h i. rewrite (Hcons h i).
  by setoid_rewrite Hext.
Qed.

(** Writing one leaf at an index that holds none, and adding the index to the
    bucket of the leaf's hash, keeps the index consistent. *)
Lemma h2s_consistent_step (st : gmap Key Value) (id : Z) (mp : gmap string (list Z))
    (leaf : LogLeaf) :
  h2s_consistent st id mp →
  leaf_at st id (LeafIndex leaf) = None →
  h2s_consistent
    (<[hashToSeqKey id :=
         VMap (<[MerkleLeafHash leaf :=
                   default [] (mp !! MerkleLeafHash leaf) ++ [LeafIndex leaf]]> mp)]>
       (<[seqLeafKey id (LeafIndex leaf) := VLeaf leaf]> st))
    id
    (<[MerkleLeafHash leaf :=
         default [] (mp !! MerkleLeafHash leaf) ++ [LeafIndex leaf]]> mp).
Proof.
  intros Hcons Hfresh h i. rewrite leaf_at_insert_other by done.
  destruct (decide (i = LeafIndex leaf)) as [->|Hi].
  - rewrite leaf_at_insert_leaf. split.
    + intros (seq & Hseq & Hin). exists leaf. split; [done|].
      destruct (decide (MerkleLeafHash leaf = h)) as [|Hh]; [done|].
      rewrite lookup_insert_ne in Hseq by done.
      destruct (proj1 (Hcons h (LeafIndex leaf))) as (l' & Hl' & _); [by exists seq|].
      congruence.
    + intros (l' & [= <-] & <-). eexists. rewrite lookup_insert_eq. split; [done|].
      apply elem_of_app. right. by apply list_elem_of_singleton.
  - rewrite leaf_at_insert_other by congruence. rewrite <- (Hcons h i).
    destruct (decide (MerkleLeafHash leaf = h)) as [<-|Hh].
    + rewrite lookup_insert_eq. split.
      * intros (seq & [= <-] & Hin). apply elem_of_app in Hin as [Hin|Hin].
        -- destruct (mp !! MerkleLeafHash leaf) as [old|]; simpl in Hin.
           ++ by exists old.
           ++ by apply elem_of_nil in Hin.
        -- apply list_elem_of_singleton in Hin. congruence.
      * intros (seq & Hseq & Hin). eexists. split; [done|].
        rewrite Hseq. simpl. apply elem_of_app. by left.
    + by rewrite lookup_insert_ne.
Qed.

Lemma UpdateSequencedLeaves_insert_consistent (id hashSize : Z) (leaves : list LogLeaf) :
  Forall (λ l, len (LeafIdentityHash l) = hashSize) leaves →
  NoDup (LeafIndex <$> leaves) →
  ∀ st c mp,
    st !! hashToSeqKey id = Some (VMap mp) →
    h2s_consistent st id mp →
    (∀ l, l ∈ leaves → leaf_at st id (LeafIndex l) = None) →
    ∃ mp',
      (UpdateSequencedLeaves_insert id hashSize leaves st c).2 !! hashToSeqKey id
      = Some (VMap mp') ∧
      h2s_consistent (UpdateSequencedLeaves_insert id hashSize leaves st c).2 id mp'.
Proof.
  induction 1 as [|leaf leaves Hgood _ IH]; intros Hnd st c mp Hmp Hcons Hfresh.
  - exists mp. by split.
  - cbn [UpdateSequencedLeaves_insert].
    rewrite bool_decide_eq_false_2 by (by intros []).
    rewrite lookup_insert_ne by done. rewrite Hmp.
    rewrite fmap_cons in Hnd. apply NoDup_cons in Hnd as [Hnotin Hnd].
    apply (IH Hnd _ _ (<[MerkleLeafHash leaf :=
              default [] (mp !! MerkleLeafHash leaf) ++ [LeafIndex leaf]]> mp)).
    + apply lookup_insert_eq.
    + apply h2s_consistent_step; [done|]. apply Hfresh. by left.
    + intros l Hl. rewrite leaf_at_insert_other by done.
      rewrite leaf_at_insert_other.
      * apply Hfresh. by right.
      * intros [= Heq]. apply Hnotin. rewrite Heq. by apply list_elem_of_fmap_2.
Qed.

(** X9.  [UpdateSequencedLeaves] keeps the hash index consistent with the
    sequenced leaves when the leaves of the argument have distinct indices
    that hold no leaf yet: afterwards the index lists, under each Merkle hash,
    exactly the indices of the sequenced leaves with that hash. *)
Theorem UpdateSequencedLeaves_keeps_index_consistent
    (t : logTreeTX) (q : list LogLeaf) (mp : gmap string (list Z))
    (leaves : list LogLeaf) :
  tx t !! unseqKey (treeID t) = Some (VList q) →
  tx t !! hashToSeqKey (treeID t) = Some (VMap mp) →
  Forall (λ l, len (LeafIdentityHash l) = hashSizeBytes t) leaves →
  h2s_consistent (tx t) (treeID t) mp →
  NoDup (LeafIndex <$> leaves) →
  (∀ l, l ∈ leaves → leaf_at (tx t) (treeID t) (LeafIndex l) = None) →
  ∃ mp',
    tx (UpdateSequencedLeaves t leaves).2 !! hashToSeqKey (treeID t) = Some (VMap mp') ∧
    h2s_consistent (tx (UpdateSequencedLeaves t leaves).2) (treeID t) mp'.
Proof.
  intros Hq Hmp Hgood Hcons Hnd Hfresh.
  destruct (UpdateSequencedLeaves_tx t q mp leaves Hq Hmp Hgood) as (q' & -> & _).
  destruct (UpdateSequencedLeaves_insert_consistent (treeID t) (hashSizeBytes t) leaves
              Hgood Hnd (tx t) ∅ mp Hmp Hcons Hfresh) as (mp' & Hmp' & Hcons').
  exists mp'. split.
  - by rewrite lookup_insert_ne.
  - apply (h2s_consistent_ext
             (UpdateSequencedLeaves_insert (treeID t) (hashSizeBytes t) leaves (tx t) ∅).2);
      [|exact Hcons'].
    intros i. by apply leaf_at_insert_other.
Qed.

Lemma store17_consistent (q : list LogLeaf) : h2s_consistent (store17 q) 17 ∅.
Proof.
  intros h i. split.
  - intros (seq & Hseq & _). by rewrite lookup_empty in Hseq.
  - intros (l & Hl & _). unfold leaf_at, store17 in Hl.
    rewrite !lookup_insert_ne in Hl by done. by rewrite lookup_empty in Hl.
Qed.

Lemma UpdateSequencedLeaves_keeps_index_consistent_witness :
  ∃ mp',
    tx (UpdateSequencedLeaves (tx17 [leafA; leafB]) [leafA; leafB]).2 !! hashToSeqKey 17
    = Some (VMap mp') ∧
    h2s_consistent (tx (UpdateSequencedLeaves (tx17 [leafA; leafB]) [leafA; leafB]).2) 17 mp'.
Proof.
  apply (UpdateSequencedLeaves_keeps_index_consistent
           (tx17 [leafA; leafB]) [leafA; leafB] ∅ [leafA; leafB]).
  - vm_compute. reflexivity.
  - vm_compute. reflexivity.
  - repeat constructor.
  - exact (store17_consistent [leafA; leafB]).
  - vm_compute. apply NoDup_cons. split.
    + intros Hin. apply list_elem_of_singleton in Hin. discriminate.
    + apply NoDup_singleton.
  - intros l Hl. unfold leaf_at. simpl. unfold store17.
    rewrite !lookup_insert_ne by done. by rewrite lookup_empty.
Defined.

(** ** Which queue entries [UpdateSequencedLeaves] removes *)

Lemma consume_ext (q : list LogLeaf) : ∀ need1 need2,
  (∀ h, need1 h = need2 h) → consume need1 q = consume need2 q.
Proof.
  induction q as [|x q IH]; intros need1 need2 Hext; simpl; [done|].
  rewrite <- Hext. destruct (need1 (MerkleLeafHash x)).
  - f_equal. by apply IH.
  - apply IH. intros h. destruct (decide _); [done|apply Hext].
Qed.

Lemma consume_zero (q : list LogLeaf) (need : string → nat) :
  (∀ h, need h = 0%nat) → consume need q = q.
Proof.
  intros Hzero. induction q as [|x q IH]; simpl; [done|].
  by rewrite Hzero, IH.
Qed.

(** The entries that the scan keeps are those that [consume] keeps. *)
Lemma scan_split_consume (e : list (nat * LogLeaf)) : ∀ c rm kp c',
  positive_counts c →
  scan_split (MerkleLeafHash ∘ snd) e c = (rm, kp, c') →
  kp.*2 = consume (λ h, Z.to_nat (count_of c h)) e.*2.
Proof.
  induction e as [|x e IH]; intros c rm kp c' Hpos Hsplit; simpl in Hsplit.
  - by injection Hsplit as <- <- <-.
  - rewrite fmap_cons. cbn [consume].
    destruct (bool_decide (0 < size c)%nat) eqn:Hsize.
    + destruct (0 <? count_of c (MerkleLeafHash x.2)) eqn:Hcount.
      * apply Z.ltb_lt in Hcount.
        destruct (scan_split _ e (decrement c _)) as [[rm1 kp1] c1] eqn:Hrec.
        injection Hsplit as <- <- <-.
        destruct (Z.to_nat (count_of c (MerkleLeafHash x.2))) as [|k] eqn:Hk; [lia|].
        rewrite (IH _ _ _ _ (positive_counts_decrement _ _ Hpos Hcount) Hrec).
        apply consume_ext. intros h. rewrite count_of_decrement.
        destruct (decide _); [lia|done].
      * apply Z.ltb_ge in Hcount.
        destruct (scan_split _ e c) as [[rm1 kp1] c1] eqn:Hrec.
        injection Hsplit as <- <- <-.
        pose proof (count_of_nonneg c (MerkleLeafHash x.2) Hpos).
        replace (Z.to_nat (count_of c (MerkleLeafHash x.2))) with O by lia.
        rewrite fmap_cons. f_equal. by apply (IH _ _ _ _ Hpos Hrec).
    + apply bool_decide_eq_false in Hsize.
      assert (c = ∅) as -> by (apply map_size_empty_inv; lia).
      injection Hsplit as <- <- <-. rewrite fmap_cons.
      assert (∀ h, Z.to_nat (count_of ∅ h) = 0%nat) as Hzero
        by (intros h; unfold count_of; by rewrite lookup_empty).
      rewrite Hzero. f_equal. symmetry. by apply consume_zero.
Qed.

(** When the queue has enough entries of every hash, the scan uses up all
    counts. *)
Lemma scan_split_enough {A : Type} (hash : A → string) (e : list A)
    (c : gmap string Z) (rm kp : list A) (c' : gmap string Z) :
  positive_counts c →
  scan_split hash e c = (rm, kp, c') →
  (∀ h, count_of c h ≤ Z.of_nat (occ h (hash <$> e))) →
  c' = ∅.
Proof.
  intros Hpos Hsplit Henough.
  destruct (scan_split_spec hash e c Hpos _ _ _ Hsplit)
    as (Hperm & _ & Hpos' & Hrm & Hleft).
  apply (proj2 (positive_counts_empty_iff _ Hpos')). intros h.
  destruct (decide (0 < count_of c' h)) as [Hh|]; [|lia].
  specialize (Hleft h Hh). specialize (Henough h). specialize (Hrm h).
  assert (occ h (hash <$> e) = (occ h (hash <$> rm) + occ h (hash <$> kp))%nat) as Hocc.
  { rewrite <- occ_app, <- fmap_app. apply occ_Permutation. by rewrite Hperm. }
  lia.
Qed.

(** The run of the call on leaves of the right identity-hash size, step by
    step. *)
Lemma UpdateSequencedLeaves_run (t : logTreeTX) (q : list LogLeaf)
    (mp : gmap string (list Z)) (leaves : list LogLeaf) :
  tx t !! unseqKey (treeID t) = Some (VList q) →
  tx t !! hashToSeqKey (treeID t) = Some (VMap mp) →
  Forall (λ l, len (LeafIdentityHash l) = hashSizeBytes t) leaves →
  ∃ st c rm kp c',
    positive_counts c ∧
    (∀ h, count_of c h = Z.of_nat (occ h (MerkleLeafHash <$> leaves))) ∧
    scan_split (MerkleLeafHash ∘ snd) (Elements q) c = (rm, kp, c') ∧
    UpdateSequencedLeaves t leaves
    = (if bool_decide (size c' ≠ 0%nat)
       then Fail (ErrUnknownLeaves (Z.of_nat (size c')) c') else Ret tt,
       set_tx (λ _, <[unseqKey (treeID t) := VList kp.*2]> st) t).
Proof.
  intros Hq Hmp Hgood.
  destruct (UpdateSequencedLeaves_insert_counts (treeID t) (hashSizeBytes t) leaves
              Hgood (tx t) ∅ mp Hmp) as (st & c & Hins & Hst & Hpos & Hcnt).
  { intros h v Hv. by rewrite lookup_empty in Hv. }
  destruct (scan_split (MerkleLeafHash ∘ snd) (Elements q) c) as [[rm kp] c'] eqn:Hsplit.
  exists st, c, rm, kp, c'. split; [done|]. split; [|split; [done|]].
  - intros h. rewrite Hcnt. unfold count_of. by rewrite lookup_empty.
  - unfold UpdateSequencedLeaves. rewrite Hins, Hst, Hq.
    rewrite (UpdateSequencedLeaves_scan_split _ _ [] _ _ _ Hsplit). simpl.
    rewrite Remove_all_filter.
    rewrite (scan_split_kept _ c rm kp c'); [|rewrite Elements_fst; apply NoDup_seq|done].
    by destruct (bool_decide _).
Qed.

Lemma consume_first_match (need : string → nat) (h : string) (q1 : list LogLeaf)
    (e : LogLeaf) (q2 : list LogLeaf) :
  (∀ h', need h' = if decide (h' = h) then 1%nat else 0%nat) →
  MerkleLeafHash e = h →
  Forall (λ x, MerkleLeafHash x ≠ h) q1 →
  consume need (q1 ++ e :: q2) = q1 ++ q2.
Proof.
  intros Hneed He Hq1. induction Hq1 as [|x q1 Hx _ IH]; simpl.
  - rewrite Hneed, He, decide_True by done. apply consume_zero.
    intros h'. simpl. destruct (decide (h' = h)) as [|Hne]; [done|].
    rewrite Hneed. by rewrite decide_False.
  - rewrite Hneed, decide_False by done. by rewrite IH.
Qed.

(** X10.  [UpdateSequencedLeaves] takes entries out of the queue from the
    front: going through the queue in order, an entry is removed while leaves
    of its Merkle hash are still to be matched and kept otherwise, whether the
    call then succeeds or reports unknown leaves.  For one leaf, the entry
    removed is the first one with the leaf's Merkle hash. *)
Theorem UpdateSequencedLeaves_removes_earliest
    (t : logTreeTX) (q : list LogLeaf) (mp : gmap string (list Z))
    (leaves : list LogLeaf) :
  tx t !! unseqKey (treeID t) = Some (VList q) →
  tx t !! hashToSeqKey (treeID t) = Some (VMap mp) →
  Forall (λ l, len (LeafIdentityHash l) = hashSizeBytes t) leaves →
  tx (UpdateSequencedLeaves t leaves).2 !! unseqKey (treeID t)
  = Some (VList (consume (λ h, occ h (MerkleLeafHash <$> leaves)) q)) ∧
  (∀ l q1 e q2,
     leaves = [l] → q = q1 ++ e :: q2 →
     MerkleLeafHash e = MerkleLeafHash l →
     Forall (λ x, MerkleLeafHash x ≠ MerkleLeafHash l) q1 →
     tx (UpdateSequencedLeaves t leaves).2 !! unseqKey (treeID t)
     = Some (VList (q1 ++ q2))).
Proof.
  intros Hq Hmp Hgood.
  destruct (UpdateSequencedLeaves_run t q mp leaves Hq Hmp Hgood)
    as (st & c & rm & kp & c' & Hpos & Hc & Hsplit & ->).
  simpl. rewrite lookup_insert_eq.
  rewrite (scan_split_consume _ _ _ _ _ Hpos Hsplit), Elements_snd.
  assert (Hcons : consume (λ h, Z.to_nat (count_of c h)) q
                  = consume (λ h, occ h (MerkleLeafHash <$> leaves)) q).
  { apply consume_ext. intros h. rewrite Hc. lia. }
  rewrite Hcons. split; [done|].
  intros l q1 e q2 -> -> He Hq1. do 2 f_equal.
  apply (consume_first_match _ (MerkleLeafHash l)); [|done..].
  intros h'. change (MerkleLeafHash <$> [l]) with [MerkleLeafHash l].
  rewrite occ_cons.
  destruct (decide (MerkleLeafHash l = h')); destruct (decide (h' = MerkleLeafHash l));
    try done; congruence.
Qed.

Lemma UpdateSequencedLeaves_removes_earliest_witness :
  tx (UpdateSequencedLeaves (tx17 [leafA; leafB; leafC]) [leafB]).2 !! unseqKey 17
  = Some (VList ([leafA] ++ [leafC])).
Proof.
  destruct (UpdateSequencedLeaves_removes_earliest
              (tx17 [leafA; leafB; leafC]) [leafA; leafB; leafC] ∅ [leafB])
    as [_ Hfirst].
  - vm_compute. reflexivity.
  - vm_compute. reflexivity.
  - repeat constructor.
  - apply (Hfirst leafB [leafA] leafB [leafC]); try reflexivity.
    repeat constructor. discriminate.
Defined.

Lemma consume_take_drop (q : list LogLeaf) : ∀ n,
  consume (λ h, occ h (MerkleLeafHash <$> take n q)) q = drop n q.
Proof.
  induction q as [|x q IH]; intros n; [by destruct n|].
  destruct n as [|n].
  - apply consume_zero. intros h. done.
  - cbn [take fmap list_fmap consume drop]. rewrite occ_cons, decide_True by done.
    rewrite <- (IH n). apply consume_ext. intros h.
    destruct (decide (h = MerkleLeafHash x)) as [->|Hne]; [done|].
    by rewrite occ_cons, decide_False by congruence.
Qed.

(** X11.  The sequencer's step: when [UpdateSequencedLeaves] is given leaves
    that carry, in order, the Merkle hashes of the batch [DequeueLeaves]
    returned, it succeeds and removes exactly that batch: the queue is left
    with the entries behind the first [limit]. *)
Theorem DequeueLeaves_then_UpdateSequencedLeaves
    (t : logTreeTX) (q : list LogLeaf) (mp : gmap string (list Z))
    (limit cutoffTime : Z) (batch leaves : list LogLeaf) :
  tx t !! unseqKey (treeID t) = Some (VList q) →
  tx t !! hashToSeqKey (treeID t) = Some (VMap mp) →
  DequeueLeaves t limit cutoffTime = Ret batch →
  MerkleLeafHash <$> leaves = MerkleLeafHash <$> batch →
  Forall (λ l, len (LeafIdentityHash l) = hashSizeBytes t) leaves →
  (UpdateSequencedLeaves t leaves).1 = Ret tt ∧
  tx (UpdateSequencedLeaves t leaves).2 !! unseqKey (treeID t)
  = Some (VList (drop (Z.to_nat limit) q)).
Proof.
  intros Hq Hmp Hdq Hhashes Hgood.
  assert (batch = take (Z.to_nat limit) q) as ->.
  { unfold DequeueLeaves in Hdq. destruct (negb _); [discriminate|].
    rewrite Hq, DequeueLeaves_loop_take in Hdq. simpl in Hdq.
    rewrite Z.sub_0_r in Hdq. by injection Hdq as <-. }
  destruct (UpdateSequencedLeaves_run t q mp leaves Hq Hmp Hgood)
    as (st & c & rm & kp & c' & Hpos & Hc & Hsplit & ->).
  assert (c' = ∅) as ->.
  { apply (scan_split_enough _ _ _ _ _ _ Hpos Hsplit). intros h.
    rewrite Hc, Hhashes, list_fmap_compose, Elements_snd.
    rewrite <- (take_drop (Z.to_nat limit) q) at 2.
    rewrite fmap_app, occ_app. lia. }
  simpl. rewrite map_size_empty. simpl. split; [done|].
  rewrite lookup_insert_eq. do 2 f_equal.
  rewrite (scan_split_consume _ _ _ _ _ Hpos Hsplit), Elements_snd.
  rewrite <- consume_take_drop. apply consume_ext. intros h.
  rewrite Hc, Hhashes. lia.
Qed.

Lemma DequeueLeaves_then_UpdateSequencedLeaves_witness :
  (UpdateSequencedLeaves (tx17 [leafA; leafB; leafC])
     [mkLeaf (h32 "a") (h32 "A") 0 1000; mkLeaf (h32 "b") (h32 "B") 1 1001]).1 = Ret tt ∧
  tx (UpdateSequencedLeaves (tx17 [leafA; leafB; leafC])
        [mkLeaf (h32 "a") (h32 "A") 0 1000; mkLeaf (h32 "b") (h32 "B") 1 1001]).2
    !! unseqKey 17
  = Some (VList (drop (Z.to_nat 2) [leafA; leafB; leafC])).
Proof.
  apply (DequeueLeaves_then_UpdateSequencedLeaves
           (tx17 [leafA; leafB; leafC]) [leafA; leafB; leafC] ∅ 2 0 [leafA; leafB]).
  - vm_compute. reflexivity.
  - vm_compute. reflexivity.
  - vm_compute. reflexivity.
  - reflexivity.
  - repeat constructor.
Defined.

(** X12.  [UpdateSequencedLeaves] with no leaves returns nil and changes
    nothing when the store holds the queue, and panics when the store holds no
    queue item. *)
Theorem UpdateSequencedLeaves_no_leaves (t : logTreeTX) :
  (∀ q, tx t !! unseqKey (treeID t) = Some (VList q) →
        UpdateSequencedLeaves t [] = (Ret tt, t)) ∧
  (tx t !! unseqKey (treeID t) = None → (UpdateSequencedLeaves t []).1 = Panic).
Proof.
  unfold UpdateSequencedLeaves. simpl. split.
  - intros q Hq. rewrite Hq.
    assert (UpdateSequencedLeaves_scan (Elements q) ∅ [] = ([], ∅)) as ->.
    { destruct (Elements q); [done|]. simpl. by rewrite map_size_empty. }
    rewrite map_size_empty. simpl. f_equal.
    unfold Remove_all. simpl. rewrite Elements_snd.
    rewrite insert_id by done. by destruct t.
  - by intros ->.
Qed.

Lemma UpdateSequencedLeaves_no_leaves_witness :
  UpdateSequencedLeaves (tx17 [leafA]) [] = (Ret tt, tx17 [leafA]).
Proof.
  apply (UpdateSequencedLeaves_no_leaves (tx17 [leafA]) ) with (q := [leafA]).
  vm_compute. reflexivity.
Defined.

(** ** No panic on a well-formed store *)






Lemma tx17_ready (q : list LogLeaf) : tx_ready (trees17 q) (tx17 q).
Proof.
  split; [|split; [|split]].
  - unfold tx17, store17. simpl. by repeat apply map_Forall_insert_2.
  - by eexists.
  - by eexists.
  - by eexists.
Qed.


(** ** Listing the active logs *)

Lemma GetActiveLogIDs_loop_omap (trees : list (Z * memTree)) : ∀ ret,
  GetActiveLogIDs_loop trees ret
  = ret ++ omap (λ kv : Z * memTree,
                   if Deleted (meta kv.2) then None else
                   match TreeState_ (meta kv.2) with
                   | ACTIVE | DRAINING => Some kv.1
                   | FROZEN => None
                   end) trees.
Proof.
  induction trees as [|[id tr] trees IH]; intros ret; simpl.
  - by rewrite app_nil_r.
  - destruct (Deleted (meta tr)); [apply IH|].
    destruct (TreeType_ (meta tr)); destruct (TreeState_ (meta tr));
      rewrite IH; simpl; by rewrite <- ?app_assoc.
Qed.

Lemma omap_fst_sublist {A B : Type} (g : A * B → option A) (l : list (A * B)) :
  (∀ x y, g x = Some y → y = x.1) → omap g l `sublist_of` l.*1.
Proof.
  intros Hg. induction l as [|x l IH]; [constructor|].
  rewrite omap_cons_match, fmap_cons. destruct (g x) as [y|] eqn:Hy.
  - rewrite (Hg _ _ Hy). by apply sublist_skip.
  - by apply sublist_cons.
Qed.

(** X14.  [GetActiveLogIDs] returns, each once, the IDs of the trees of the
    storage that are not deleted and are in the ACTIVE or the DRAINING state,
    and no other ID. *)
Theorem GetActiveLogIDs_lists_active_trees (m : gmap Z memTree) :
  (∀ id, id ∈ GetActiveLogIDs m ↔
         ∃ tr, m !! id = Some tr ∧ Deleted (meta tr) = false ∧
               (TreeState_ (meta tr) = ACTIVE ∨ TreeState_ (meta tr) = DRAINING)) ∧
  NoDup (GetActiveLogIDs m).
Proof.
  unfold GetActiveLogIDs. rewrite GetActiveLogIDs_loop_omap. simpl. split.
  - intros id. rewrite list_elem_of_omap. split.
    + intros ([id' tr] & Hin & Hg). simpl in Hg.
      apply elem_of_map_to_list in Hin.
      destruct (Deleted (meta tr)) eqn:Hdel; [discriminate|].
      destruct (TreeState_ (meta tr)) eqn:Hst; try discriminate;
        injection Hg as <-; exists tr; eauto.
    + intros (tr & Htr & Hdel & Hst). exists (id, tr). split.
      * by apply elem_of_map_to_list.
      * simpl. rewrite Hdel. by destruct Hst as [-> | ->].
  - apply (sublist_NoDup _ (map_to_list m).*1); [apply NoDup_fst_map_to_list|].
    apply omap_fst_sublist. intros [id tr] y. simpl.
    destruct (Deleted (meta tr)); [discriminate|].
    destruct (TreeState_ (meta tr)); congruence.
Qed.

(** ** The names of the keys *)

Lemma is_digit_not (c : ascii) : is_digit c → c ≠ "/"%char ∧ c ≠ "-"%char.
Proof.
  intros [n ->]. unfold pretty_N_char. split; by repeat case_match.
Qed.

Lemma has_char_app (c : ascii) (s1 s2 : string) :
  has_char c (s1 +:+ s2) ↔ has_char c s1 ∨ has_char c s2.
Proof. induction s1 as [|c' s1 IH]; simpl; [tauto|]. rewrite IH. tauto. Qed.

(** The decimal digits of a number are digits. *)
Lemma pretty_N_go_chars (c : ascii) (x : N) : ∀ s,
  has_char c (pretty_N_go x s) → has_char c s ∨ is_digit c.
Proof.
  induction (N.lt_wf_0 x) as [x _ IH]; intros s Hc.
  assert (x = 0 ∨ 0 < x)%N as [->|Hx] by lia.
  - left. by rewrite pretty_N_go_0 in Hc.
  - rewrite pretty_N_go_step in Hc by done.
    apply IH in Hc; [|by apply N.div_lt].
    destruct Hc as [[->|Hc]|Hc]; [right; by eexists|by left|by right].
Qed.

Lemma pretty_N_chars (c : ascii) (n : N) : has_char c (pretty n) → is_digit c.
Proof.
  unfold pretty, pretty_N. destruct (decide _).
  - simpl. intros [->|[]]. by exists 0%N.
  - intros Hc. by apply pretty_N_go_chars in Hc as [[]|Hc].
Qed.

Lemma pretty_Z_no_slash (z : Z) : ¬ has_char "/" (pretty z).
Proof.
  unfold pretty, pretty_Z. intros Hc. destruct z as [|p|p].
  - simpl in Hc. by destruct Hc as [|[]].
  - apply (pretty_N_chars _ (N.pos p)) in Hc. by apply is_digit_not in Hc as [].
  - simpl in Hc. destruct Hc as [|Hc]; [done|].
    apply (pretty_N_chars _ (N.pos p)) in Hc. by apply is_digit_not in Hc as [].
Qed.

(** The first digit of a number that is not zero is not the digit zero. *)
Lemma pretty_N_go_first (x : N) : ∀ s,
  (0 < x)%N → ∃ c r, pretty_N_go x s = String c r ∧ c ≠ "0"%char.
Proof.
  induction (N.lt_wf_0 x) as [x _ IH]; intros s Hx.
  rewrite pretty_N_go_step by done.
  destruct (N.eq_0_gt_0_cases (x `div` 10)%N) as [Hz|Hpos].
  - rewrite Hz, pretty_N_go_0. eexists _, _. split; [done|].
    assert (x < 10)%N by (by apply N.div_small_iff in Hz).
    rewrite N.mod_small by done.
    assert (x = 1 ∨ x = 2 ∨ x = 3 ∨ x = 4 ∨ x = 5 ∨ x = 6
            ∨ x = 7 ∨ x = 8 ∨ x = 9)%N as Hcases by lia.
    repeat (destruct Hcases as [->|Hcases]; [discriminate|]).
    subst. discriminate.
  - apply IH; [by apply N.div_lt|done].
Qed.

Lemma pretty_N_numeral (n : N) : numeral (pretty n).
Proof.
  unfold pretty, pretty_N. destruct (decide (n = 0%N)) as [->|Hn].
  - split; [done|]. by intros r [= <-].
  - destruct (pretty_N_go_first n "") as (c & r & -> & Hc); [lia|].
    split; [done|]. intros r' [= -> _]. done.
Qed.

Lemma zeros_app_inj (s1 s2 : string) : ∀ k1 k2,
  numeral s1 → numeral s2 →
  zeros k1 +:+ s1 = zeros k2 +:+ s2 → s1 = s2.
Proof.
  intros k1 k2 [Hne1 Hz1] [Hne2 Hz2]. revert k2.
  induction k1 as [|k1 IH]; intros [|k2]; simpl; intros Heq.
  - done.
  - apply Hz1 in Heq as Hr. destruct k2; simpl in Hr; [congruence|discriminate].
  - symmetry in Heq. apply Hz2 in Heq as Hr.
    destruct k1; simpl in Hr; [congruence|discriminate].
  - injection Heq as Heq. by apply (IH k2).
Qed.

Lemma zero_pad_inj (w : nat) (s1 s2 : string) :
  numeral s1 → numeral s2 → zero_pad w s1 = zero_pad w s2 → s1 = s2.
Proof. intros H1 H2. unfold zero_pad. by apply zeros_app_inj. Qed.

Lemma zeros_chars (c : ascii) (k : nat) : has_char c (zeros k) → c = "0"%char.
Proof. induction k as [|k IH]; simpl; [done|]. intros [->|Hc]; [done|by apply IH]. Qed.

Lemma fmt_020d_inj (z1 z2 : Z) : fmt_020d z1 = fmt_020d z2 → z1 = z2.
Proof.
  assert (Hnum : ∀ z, 0 ≤ z → numeral (pretty z)).
  { intros [|p|p] Hz; [|apply (pretty_N_numeral (N.pos p))|lia].
    split; [done|]. by intros r [= <-]. }
  assert (Hpos : ∀ z w r, 0 ≤ z → zero_pad w (pretty z) ≠ String "-" r).
  { intros z w r Hz Heq.
    assert (has_char "-" (zero_pad w (pretty z))) as Hc by (rewrite Heq; by left).
    unfold zero_pad in Hc. apply has_char_app in Hc as [Hc|Hc].
    - by apply zeros_chars in Hc.
    - destruct z as [|p|p]; [by destruct Hc as [|[]]| |lia].
      apply (pretty_N_chars _ (N.pos p)) in Hc. by apply is_digit_not in Hc as []. }
  assert (Hnn : ∀ z, 0 ≤ z → fmt_020d z = zero_pad 20 (pretty z)).
  { by intros [|p|p] Hz; [..|lia]. }
  intros Heq.
  destruct (decide (0 ≤ z1)) as [H1|H1]; destruct (decide (0 ≤ z2)) as [H2|H2].
  - rewrite !Hnn in Heq by done.
    apply zero_pad_inj in Heq; [by apply (inj pretty) in Heq|by apply Hnum..].
  - rewrite (Hnn z1) in Heq by done. destruct z2 as [|p2|p2]; try lia.
    by destruct (Hpos _ _ _ H1 Heq).
  - rewrite (Hnn z2) in Heq by done. destruct z1 as [|p1|p1]; try lia.
    symmetry in Heq. by destruct (Hpos _ _ _ H2 Heq).
  - destruct z1 as [|p1|p1]; try lia. destruct z2 as [|p2|p2]; try lia.
    injection Heq as Heq.
    apply zero_pad_inj in Heq; [|apply Hnum; lia..].
    apply (inj pretty) in Heq. congruence.
Qed.

(** Two strings cut at the first occurrence of a character agree before and
    behind it when they agree as a whole. *)
Lemma app_delim_inj (c : ascii) (s1 : string) : ∀ s2 r1 r2,
  ¬ has_char c s1 → ¬ has_char c s2 →
  s1 +:+ String c r1 = s2 +:+ String c r2 → s1 = s2 ∧ r1 = r2.
Proof.
  induction s1 as [|a s1 IH]; intros [|b s2] r1 r2 H1 H2 Heq; simpl in *.
  - by injection Heq as <-.
  - injection Heq as <- _. destruct H2. by left.
  - injection Heq as -> _. destruct H1. by left.
  - injection Heq as <- Heq.
    destruct (IH s2 r1 r2) as [<- <-]; [tauto..|done|done].
Qed.

Lemma Key_string_eq (k1 k2 : Key) : Key_string k1 = Key_string k2 → k1 = k2.
Proof.
  intros Heq.
  destruct k1, k2; simpl in Heq; injection Heq as Heq;
    apply (app_delim_inj "/") in Heq as [Hid Hrest];
    try apply pretty_Z_no_slash;
    apply (inj pretty) in Hid; subst;
    try discriminate; try done;
    injection Hrest as Hrest; apply fmt_020d_inj in Hrest; by subst.
Qed.

(** The formats on some keys: the tree ID in plain decimal, the sequence
    number or timestamp on twenty characters, sign included. *)
Lemma Key_string_samples :
  Key_string (unseqKey 17) = "/17/unseq" ∧
  Key_string (hashToSeqKey (-3)) = "/-3/h2s" ∧
  Key_string (seqLeafKey 17 42) = "/17/seq/00000000000000000042" ∧
  Key_string (seqLeafKey 17 (-1)) = "/17/seq/-0000000000000000001" ∧
  Key_string (sthKey 17 18446744073709551615) = "/17/sth/18446744073709551615" ∧
  Key_string (revKey 17 0) = "/17/rev/00000000000000000000".
Proof. repeat split; vm_compute; reflexivity. Qed.

(** X15.  The five key formats never produce the same string for two
    different keys: keys of different kinds, or of one kind with a different
    tree ID, sequence number or timestamp, have different names. *)
Theorem Key_string_inj (k1 k2 : Key) : k1 ≠ k2 → Key_string k1 ≠ Key_string k2.
Proof. intros Hne Heq. by apply Hne, Key_string_eq. Qed.

Lemma Key_string_inj_witness :
  Key_string (seqLeafKey 17 12) ≠ Key_string (seqLeafKey 171 2).
Proof. apply (Key_string_inj (seqLeafKey 17 12) (seqLeafKey 171 2)). discriminate. Defined.

(** ** From one transaction to the next *)

Lemma beginInternal_err (m : gmap Z memTree) (tr : Tree) (ro : bool)
    (t : logTreeTX) (e : error) :
  memoryLogStorage.beginInternal m tr ro = Began (Some t) (Some e) →
  e = ErrTreeNeedsInit.
Proof.
  unfold memoryLogStorage.beginInternal.
  destruct (beginTreeTX _ _ _ _); try discriminate.
  destruct (fetchLatestRoot _ _) as [[sth rev]|e'|]; try discriminate.
  - destruct (UnmarshalBinary _); discriminate.
  - destruct e'; try discriminate. by intros [= _ <-].
Qed.

(** X16.  A root stored and committed by [ReadWriteTransaction] is the root
    the next transaction starts from, be the tree initialised before or not:
    when the function of the transaction is the one call of
    [StoreSignedLogRoot], with a root that unmarshals and is not older than
    [currentSTH], the transaction returns nil, and [SnapshotForTree] afterwards
    gives a transaction whose latest signed root is that root, whose log root
    is its body, and whose write revision is one more than the revision the
    root was stored with. *)
Theorem ReadWriteTransaction_root_seen_by_snapshot
    (m : gmap Z memTree) (tr : Tree) (mt : memTree) (t : logTreeTX)
    (err : option error) (s : SignedLogRoot) (r : LogRootV1) :
  m !! TreeId tr = Some mt →
  memoryLogStorage.beginInternal m tr false = Began (Some t) err →
  LogRoot s = Some r →
  currentSTH mt ≤ TimestampNanos r →
  (memoryLogStorage.ReadWriteTransaction m tr [OpStoreSignedLogRoot s]).1 = Ret tt ∧
  ∃ t',
    memoryLogStorage.SnapshotForTree
      (memoryLogStorage.ReadWriteTransaction m tr [OpStoreSignedLogRoot s]).2 tr
    = Began (Some t') None ∧
    LatestSignedLogRoot t' = Ret (Some s) ∧
    root t' = r ∧
    writeRevision t' = wrap64 (writeRevision t + 1).
Proof.
  intros Hmt Hb Hs Hle.
  pose proof (beginInternal_tx _ _ _ _ _ Hb) as (mt' & Hmt' & Htx & Htree & Hid & _).
  assert (mt' = mt) as -> by congruence.
  assert (Hrun : memoryLogStorage.ReadWriteTransaction m tr [OpStoreSignedLogRoot s]
                 = memoryLogStorage.runAndCommit m t [OpStoreSignedLogRoot s]).
  { unfold memoryLogStorage.ReadWriteTransaction. rewrite Hb.
    destruct err as [e|]; [|done].
    by rewrite (beginInternal_err _ _ _ _ _ Hb). }
  rewrite Hrun. clear Hrun.
  unfold memoryLogStorage.runAndCommit, run, exec, StoreSignedLogRoot.
  rewrite Hs. simpl. rewrite Htree, Hmt, Hid.
  set (st := <[revKey (TreeId tr) (TimestampNanos r) := VInt (writeRevision t)]>
               (<[sthKey (TreeId tr) (TimestampNanos r) := VSLR s]> (tx t))).
  assert (Hsnap : ∀ m1 : gmap Z memTree,
            m1 !! TreeId tr
            = Some {| store := st; currentSTH := TimestampNanos r; meta := meta mt |} →
            ∃ t', memoryLogStorage.SnapshotForTree m1 tr = Began (Some t') None ∧
                  LatestSignedLogRoot t' = Ret (Some s) ∧ root t' = r ∧
                  writeRevision t' = wrap64 (writeRevision t + 1)).
  { intros m1 Hm1.
    unfold memoryLogStorage.SnapshotForTree, memoryLogStorage.beginInternal, beginTreeTX.
    rewrite Hm1. unfold fetchLatestRoot. simpl. rewrite Hm1. simpl. unfold st.
    rewrite lookup_insert_ne by done. rewrite !lookup_insert_eq.
    rewrite Hs. simpl. eexists. split; [reflexivity|]. done. }
  destruct (currentSTH mt <? TimestampNanos r) eqn:Hlt; simpl.
  - split; [done|]. apply Hsnap. rewrite Htree.
    rewrite lookup_alter_eq, lookup_insert_eq. done.
  - apply Z.ltb_ge in Hlt. split; [done|]. apply Hsnap. rewrite Htree.
    rewrite lookup_alter_eq, Hmt. simpl. unfold set_store. simpl.
    do 2 f_equal. lia.
Qed.

Lemma ReadWriteTransaction_root_seen_by_snapshot_witness :
  (memoryLogStorage.ReadWriteTransaction (trees17 []) meta17
     [OpStoreSignedLogRoot (mkRoot 1 2000 "s2")]).1 = Ret tt ∧
  ∃ t',
    memoryLogStorage.SnapshotForTree
      (memoryLogStorage.ReadWriteTransaction (trees17 []) meta17
         [OpStoreSignedLogRoot (mkRoot 1 2000 "s2")]).2 meta17
    = Began (Some t') None ∧
    LatestSignedLogRoot t' = Ret (Some (mkRoot 1 2000 "s2")) ∧
    root t' = {| TreeSize := 1; RootHash := ""; TimestampNanos := 2000; Revision := 0 |} ∧
    writeRevision t' = wrap64 (writeRevision (tx17 []) + 1).
Proof.
  apply (ReadWriteTransaction_root_seen_by_snapshot (trees17 []) meta17
           {| store := store17 []; currentSTH := 1000; meta := meta17 |}
           (tx17 []) None (mkRoot 1 2000 "s2")).
  - vm_compute. reflexivity.
  - vm_compute. reflexivity.
  - reflexivity.
  - simpl. lia.
Defined.

(** X17.  On a tree that has no signed root stored under its [currentSTH],
    [beginInternal] returns a transaction together with [ErrTreeNeedsInit];
    [QueueLeaves] on the storage then returns that error and queues nothing,
    [SnapshotForTree] returns the error and no transaction, while
    [ReadWriteTransaction] goes on to run its function. *)
Theorem tree_without_root_needs_init
    (m : gmap Z memTree) (tr : Tree) (mt : memTree) :
  m !! TreeId tr = Some mt →
  store mt !! sthKey (TreeId tr) (currentSTH mt) = None →
  (∃ t, memoryLogStorage.beginInternal m tr false = Began (Some t) (Some ErrTreeNeedsInit) ∧
        LatestSignedLogRoot t = Ret None ∧
        ∀ f, memoryLogStorage.ReadWriteTransaction m tr f
             = memoryLogStorage.runAndCommit m t f) ∧
  (∀ leaves qts,
     memoryLogStorage.QueueLeaves m tr leaves qts = (Fail ErrTreeNeedsInit, m)) ∧
  memoryLogStorage.SnapshotForTree m tr = Began None (Some ErrTreeNeedsInit).
Proof.
  intros Hmt Hnone.
  assert (Hb : ∀ ro, ∃ t,
            memoryLogStorage.beginInternal m tr ro = Began (Some t) (Some ErrTreeNeedsInit) ∧
            slr t = None).
  { intros ro. unfold memoryLogStorage.beginInternal, beginTreeTX. rewrite Hmt.
    unfold fetchLatestRoot. simpl. rewrite Hmt, Hnone. by eexists. }
  split; [|split].
  - destruct (Hb false) as (t & Ht & Hslr). exists t. split; [done|]. split.
    + unfold LatestSignedLogRoot. by rewrite Hslr.
    + intros f. unfold memoryLogStorage.ReadWriteTransaction. by rewrite Ht.
  - intros leaves qts. destruct (Hb false) as (t & Ht & _).
    unfold memoryLogStorage.QueueLeaves. by rewrite Ht.
  - destruct (Hb true) as (t & Ht & _).
    unfold memoryLogStorage.SnapshotForTree. by rewrite Ht.
Qed.

Lemma tree_without_root_needs_init_witness :
  memoryLogStorage.SnapshotForTree
    {[ 18 := {| store := ∅; currentSTH := 0; meta := meta18 |} ]} meta18
  = Began None (Some ErrTreeNeedsInit).
Proof.
  apply (tree_without_root_needs_init
           {[ 18 := {| store := ∅; currentSTH := 0; meta := meta18 |} ]} meta18
           {| store := ∅; currentSTH := 0; meta := meta18 |}).
  - vm_compute. reflexivity.
  - vm_compute. reflexivity.
Defined.

(** ** A leaf of the wrong size in [UpdateSequencedLeaves] *)

Lemma UpdateSequencedLeaves_insert_bad (id hashSize : Z) (l1 : list LogLeaf)
    (bad : LogLeaf) (l2 : list LogLeaf) :
  Forall (λ l, len (LeafIdentityHash l) = hashSize) l1 →
  len (LeafIdentityHash bad) ≠ hashSize →
  ∀ st c mp,
    st !! hashToSeqKey id = Some (VMap mp) →
    UpdateSequencedLeaves_insert id hashSize (l1 ++ bad :: l2) st c
    = (Fail (ErrSequencedHashSize (len (LeafIdentityHash bad)) hashSize),
       (UpdateSequencedLeaves_insert id hashSize l1 st c).2).
Proof.
  intros Hgood Hbad. induction Hgood as [|leaf l1 Hleaf _ IH]; intros st c mp Hmp.
  - simpl. by rewrite bool_decide_eq_true_2.
  - cbn [app UpdateSequencedLeaves_insert].
    rewrite bool_decide_eq_false_2 by (by intros []).
    rewrite lookup_insert_ne by done. rewrite Hmp.
    eapply IH. apply lookup_insert_eq.
Qed.

(** X18.  A leaf whose identity hash has not the hasher's size stops
    [UpdateSequencedLeaves] with the hash-size error where it stands: the
    leaves before it are written and stay written, the leaves behind it are
    not looked at, and the queue is not touched. *)
Theorem UpdateSequencedLeaves_stops_at_bad_leaf
    (t : logTreeTX) (mp : gmap string (list Z)) (l1 : list LogLeaf) (bad : LogLeaf)
    (l2 : list LogLeaf) :
  tx t !! hashToSeqKey (treeID t) = Some (VMap mp) →
  Forall (λ l, len (LeafIdentityHash l) = hashSizeBytes t) l1 →
  len (LeafIdentityHash bad) ≠ hashSizeBytes t →
  (UpdateSequencedLeaves t (l1 ++ bad :: l2)).1
  = Fail (ErrSequencedHashSize (len (LeafIdentityHash bad)) (hashSizeBytes t)) ∧
  tx (UpdateSequencedLeaves t (l1 ++ bad :: l2)).2 !! unseqKey (treeID t)
  = tx t !! unseqKey (treeID t) ∧
  (∀ la l lb, l1 = la ++ l :: lb → LeafIndex l ∉ LeafIndex <$> lb →
     leaf_at (tx (UpdateSequencedLeaves t (l1 ++ bad :: l2)).2) (treeID t) (LeafIndex l)
     = Some l) ∧
  (∀ i, i ∉ LeafIndex <$> l1 →
     leaf_at (tx (UpdateSequencedLeaves t (l1 ++ bad :: l2)).2) (treeID t) i
     = leaf_at (tx t) (treeID t) i).
Proof.
  intros Hmp Hgood Hbad. unfold UpdateSequencedLeaves.
  rewrite (UpdateSequencedLeaves_insert_bad _ _ _ _ _ Hgood Hbad _ _ mp Hmp). simpl.
  destruct (UpdateSequencedLeaves_insert_counts (treeID t) (hashSizeBytes t) l1
              Hgood (tx t) ∅ mp Hmp) as (st & c & Hins & Hst & _ & _).
  { intros h v Hv. by rewrite lookup_empty in Hv. }
  destruct (UpdateSequencedLeaves_insert_leaf_at (treeID t) (hashSizeBytes t) l1
              Hgood (tx t) ∅ mp Hmp) as [Hframe Hlast].
  rewrite Hins in *. simpl in *. done.
Qed.

Lemma UpdateSequencedLeaves_stops_at_bad_leaf_witness :
  (UpdateSequencedLeaves (tx17 [leafA; leafC]) ([leafA] ++ leafShort :: [leafC])).1
  = Fail (ErrSequencedHashSize (len (LeafIdentityHash leafShort))
                               (hashSizeBytes (tx17 [leafA; leafC]))) ∧
  tx (UpdateSequencedLeaves (tx17 [leafA; leafC]) ([leafA] ++ leafShort :: [leafC])).2
    !! unseqKey 17
  = tx (tx17 [leafA; leafC]) !! unseqKey 17.
Proof.
  destruct (UpdateSequencedLeaves_stops_at_bad_leaf (tx17 [leafA; leafC]) ∅
              [leafA] leafShort [leafC]) as (Herr & Hq & _).
  - vm_compute. reflexivity.
  - repeat constructor.
  - vm_compute. discriminate.
  - split; [exact Herr | exact Hq].
Defined.

(** ** Finding a sequenced leaf by its hash *)

Lemma UpdateSequencedLeaves_insert_buckets (id hashSize : Z) (leaves : list LogLeaf) :
  Forall (λ l, len (LeafIdentityHash l) = hashSize) leaves →
  ∀ st c mp,
    st !! hashToSeqKey id = Some (VMap mp) →
    ∃ mp',
      (UpdateSequencedLeaves_insert id hashSize leaves st c).2 !! hashToSeqKey id
      = Some (VMap mp') ∧
      (∀ h i, i ∈ default [] (mp !! h) → i ∈ default [] (mp' !! h)) ∧
      (∀ l, l ∈ leaves → LeafIndex l ∈ default [] (mp' !! MerkleLeafHash l)).
Proof.
  induction 1 as [|leaf leaves Hgood _ IH]; intros st c mp Hmp.
  - exists mp. split; [done|]. split; [done|]. intros l Hl. by apply elem_of_nil in Hl.
  - cbn [UpdateSequencedLeaves_insert].
    rewrite bool_decide_eq_false_2 by (by intros []).
    rewrite lookup_insert_ne by done. rewrite Hmp.
    set (mp2 := <[MerkleLeafHash leaf :=
                    default [] (mp !! MerkleLeafHash leaf) ++ [LeafIndex leaf]]> mp).
    edestruct (IH (<[hashToSeqKey id := VMap mp2]>
                     (<[seqLeafKey id (LeafIndex leaf) := VLeaf leaf]> st))
                  (<[MerkleLeafHash leaf := count_of c (MerkleLeafHash leaf) + 1]> c) mp2)
      as (mp' & Hmp' & Hmono & Hin); [apply lookup_insert_eq|].
    assert (Hstep : ∀ h i, i ∈ default [] (mp !! h) → i ∈ default [] (mp2 !! h)).
    { intros h i Hi. unfold mp2.
      destruct (decide (MerkleLeafHash leaf = h)) as [<-|Hne].
      - rewrite lookup_insert_eq. simpl. apply elem_of_app. by left.
      - by rewrite lookup_insert_ne. }
    exists mp'. split; [exact Hmp'|]. split.
    + intros h i Hi. by apply Hmono, Hstep.
    + intros l Hl. apply elem_of_cons in Hl as [->|Hl]; [|by apply Hin].
      apply Hmono. unfold mp2. rewrite lookup_insert_eq. simpl.
      apply elem_of_app. right. by apply list_elem_of_singleton.
Qed.

(** X19.  A leaf written by [UpdateSequencedLeaves] is found by
    [GetLeavesByHash] under its Merkle hash, in the same transaction, unless a
    later leaf of the same call took its index. *)
Theorem UpdateSequencedLeaves_then_GetLeavesByHash
    (t : logTreeTX) (q : list LogLeaf) (mp : gmap string (list Z))
    (l1 : list LogLeaf) (l : LogLeaf) (l2 : list LogLeaf) (o : bool) :
  store_ok (tx t) →
  tx t !! unseqKey (treeID t) = Some (VList q) →
  tx t !! hashToSeqKey (treeID t) = Some (VMap mp) →
  Forall (λ x, len (LeafIdentityHash x) = hashSizeBytes t) (l1 ++ l :: l2) →
  LeafIndex l ∉ LeafIndex <$> l2 →
  ∃ ls,
    GetLeavesByHash (UpdateSequencedLeaves t (l1 ++ l :: l2)).2 [MerkleLeafHash l] o
    = Ret ls ∧
    l ∈ ls.
Proof.
  intros Hok Hq Hmp Hgood Hl.
  pose proof (exec_store_ok (OpUpdateSequencedLeaves (l1 ++ l :: l2)) ∅ t Hok) as Hok'.
  simpl in Hok'.

  destruct (UpdateSequencedLeaves t (l1 ++ l :: l2)) as [out t'] eqn:Hrun.
  simpl in Hok'.
  destruct (UpdateSequencedLeaves_tx t q mp _ Hq Hmp Hgood) as (q' & Htx & _).
  rewrite Hrun in Htx. simpl in Htx.
  destruct (UpdateSequencedLeaves_insert_buckets (treeID t) (hashSizeBytes t) _
              Hgood (tx t) ∅ mp Hmp) as (mp' & Hmp' & _ & Hin).
  destruct (UpdateSequencedLeaves_insert_leaf_at (treeID t) (hashSizeBytes t) _
              Hgood (tx t) ∅ mp Hmp) as [_ Hlast].
  assert (treeID t' = treeID t) as Hid.
  { unfold UpdateSequencedLeaves in Hrun.
    destruct (UpdateSequencedLeaves_insert _ _ _ _ _) as [[c|e|] st];
      [|by injection Hrun as _ <-..].
    destruct (st !! _) as [[]|]; try by injection Hrun as _ <-.
    destruct (UpdateSequencedLeaves_scan _ _ _).
    by destruct (bool_decide _); injection Hrun as _ <-. }
  simpl. unfold GetLeavesByHash. rewrite Hid, Htx.
  rewrite lookup_insert_ne by done. rewrite Hmp'.
  rewrite <- Htx. rewrite GetLeavesByHash_loop_bind by done.
  eexists. split; [reflexivity|]. simpl. rewrite app_nil_r.
  unfold bucket_leaves. apply list_elem_of_omap. exists (LeafIndex l). split.
  - apply Hin. apply elem_of_app. right. by left.
  - rewrite Htx, leaf_at_insert_other by done. by apply (Hlast l1 l l2).
Qed.

Lemma UpdateSequencedLeaves_then_GetLeavesByHash_witness :
  ∃ ls,
    GetLeavesByHash (UpdateSequencedLeaves (tx17 [leafA; leafB]) ([leafA] ++ leafB :: [])).2
                    [MerkleLeafHash leafB] true
    = Ret ls ∧
    leafB ∈ ls.
Proof.
  apply (UpdateSequencedLeaves_then_GetLeavesByHash
           (tx17 [leafA; leafB]) [leafA; leafB] ∅ [leafA] leafB [] true).
  - destruct (tx17_ready [leafA; leafB]) as [Hok _]. exact Hok.
  - vm_compute. reflexivity.
  - vm_compute. reflexivity.
  - repeat constructor.
  - apply not_elem_of_nil.
Defined.

(** ** What a call may write *)

Lemma UpdateSequencedLeaves_insert_frame (id hashSize : Z) (leaves : list LogLeaf)
    (k : Key) :
  k ≠ hashToSeqKey id →
  (∀ l, l ∈ leaves → k ≠ seqLeafKey id (LeafIndex l)) →
  ∀ st c, (UpdateSequencedLeaves_insert id hashSize leaves st c).2 !! k = st !! k.
Proof.
  intros Hh. induction leaves as [|leaf leaves IH]; intros Hk st c; simpl; [done|].
  destruct (bool_decide _); [done|].
  assert (k ≠ seqLeafKey id (LeafIndex leaf)) as Hleaf by (apply Hk; by left).
  rewrite lookup_insert_ne by done.
  destruct (st !! hashToSeqKey id) as [[]|]; simpl;
    try (by rewrite lookup_insert_ne).
  rewrite IH by (intros l Hl; apply Hk; by right).
  by rewrite !lookup_insert_ne.
Qed.

(** X20.  A call on a transaction writes only the items that are its own: 
    [QueueLeaves] the queue of the tree, [StoreSignedLogRoot] the root and the
    revision under the timestamp of the root, [UpdateSequencedLeaves] the
    queue, the hash index and the indices of its leaves, and the other calls
    nothing.  Every other item of the key-value space, the items of other
    trees among them, is after the call what it was before, whatever the call
    returns. *)
Theorem exec_writes_only_its_keys (op : Op) (m : gmap Z memTree) (t : logTreeTX)
    (k : Key) :
  ¬ touches op (treeID t) k →
  tx (exec op m t).2 !! k = tx t !! k.
Proof.
  intros Hk. destruct op; simpl in *; try done.
  - unfold QueueLeaves. destruct (QueueLeaves_check _ _); [done|].
    destruct (tx t !! unseqKey (treeID t)) as [[]|]; try done.
    simpl. rewrite lookup_insert_ne; [done|congruence].
  - unfold StoreSignedLogRoot. destruct (LogRoot s) as [r|]; simpl; [|done].
    assert (tx (set_tx (insert (revKey (treeID t) (TimestampNanos r))
                               (VInt (writeRevision t)))
                  (set_tx (insert (sthKey (treeID t) (TimestampNanos r)) (VSLR s)) t))
            !! k = tx t !! k) as Hlook.
    { simpl. rewrite !lookup_insert_ne; [done|intros <-; tauto..]. }
    destruct (m !! tree t); [|done]. by destruct (_ <? _).
  - unfold UpdateSequencedLeaves.
    pose proof (UpdateSequencedLeaves_insert_frame (treeID t) (hashSizeBytes t) leaves k)
      as Hframe.
    specialize (Hframe ltac:(intros ->; tauto)).
    specialize (Hframe ltac:(intros l Hl ->; apply Hk; right; right; by exists l)).
    specialize (Hframe (tx t) ∅).
    destruct (UpdateSequencedLeaves_insert _ _ _ _ _) as [[c|e|] st]; simpl in *;
      try done.
    destruct (st !! unseqKey (treeID t)) as [[q| | | |]|]; try done.
    destruct (UpdateSequencedLeaves_scan _ _ _) as [toRemove c'].
    destruct (bool_decide _); simpl;
      (rewrite lookup_insert_ne; [done|intros <-; tauto]).
Qed.

Lemma exec_writes_only_its_keys_witness :
  tx (exec (OpUpdateSequencedLeaves [leafA]) (trees17 [leafA]) (tx17 [leafA])).2
    !! sthKey 17 1000
  = tx (tx17 [leafA]) !! sthKey 17 1000.
Proof.
  apply (exec_writes_only_its_keys (OpUpdateSequencedLeaves [leafA])
           (trees17 [leafA]) (tx17 [leafA]) (sthKey 17 1000)).
  simpl. intros [H|[H|(l & _ & H)]]; discriminate.
Defined.
